(** * State regeneration core and Capella leaf transforms of lodestar

    Shallow embedding of
    - [packages/lodestar/src/chain/regen/queued.ts]
      (class [QueuedStateRegenerator] and [getDependantRootAtEpoch]), and
    - the Capella block-processing helpers [processBlsToExecutionChange]
      and [getExpectedWithdrawals],
    followed by the properties the specification states about them. *)

From Stdlib Require Import ZArith Lia.
From stdpp Require Import base option list gmap strings fin_maps.

(** ** Results of fallible code *)

(** A JavaScript function either returns a value or throws. *)
Inductive Result (E A : Type) : Type :=
| Ok (a : A)
| Err (e : E).
Arguments Ok {E A} a.
Arguments Err {E A} e.

Module Regen.

Local Open Scope Z_scope.

(** ** Data model *)

(** Roots are carried by their hex string ([RootHex]); [toHexString] of a
    root is that string. *)
Abbreviation RootHex := string (only parsing).
Abbreviation Slot := Z (only parsing).
Abbreviation Epoch := Z (only parsing).

(** [IProtoBlock], the block summary handed out by the fork choice. *)
Record IProtoBlock : Type := {
  slot : Slot;
  blockRoot : RootHex;
  parentRoot : RootHex;
  stateRoot : RootHex;
  targetRoot : RootHex;
}.

(** [CheckpointWithHex], as returned by [getFinalizedCheckpoint]. *)
Record CheckpointWithHex : Type := {
  cp_epoch : Epoch;
  cp_rootHex : RootHex;
}.

(** The part of [IForkChoice] the regenerator reads: the block store behind
    [getBlock]/[getBlockHex] and the finalized checkpoint. *)
Record IForkChoice : Type := {
  fc_blocks : gmap string IProtoBlock;
  fc_finalized : CheckpointWithHex;
}.

Definition getBlockHex (forkChoice : IForkChoice) (root : RootHex)
  : option IProtoBlock :=
  fc_blocks forkChoice !! root.

Definition getFinalizedCheckpoint (forkChoice : IForkChoice)
  : CheckpointWithHex :=
  fc_finalized forkChoice.

(** Errors thrown by the regenerator. The source throws [RegenError] with
    a code, or a plain [Error] with a message; each throw site of the
    methods below has its constructor here. *)
Inductive RegenError : Type :=
| BLOCK_NOT_IN_FORKCHOICE (root : RootHex)
    (* RegenErrorCode.BLOCK_NOT_IN_FORKCHOICE *)
| BeforeFinalized (finalizedEpoch : Epoch)
    (* "Can not get dependant root from epoch before finalized epoch" *)
| Unresolvable (root : RootHex) (s : Slot)
    (* "Can not get dependant root for block ... slot ..." *)
| TargetBlockNotFound (root : RootHex) (epoch : Epoch)
    (* "Target block not found ... epoch ..." *)
| QUEUE_MAX_LENGTH
    (* the queue refuses a job: the specification's QueueFull *)
| Persistent
    (* the persistent reader has no such checkpoint state *).

(** ** Collaborators of the regenerator *)

(** [CachedBeaconState]: the attributes of a state the regenerator reads.
    [st_hashTreeRoot] is [toHexString(state.hashTreeRoot())]. *)
Record CachedBeaconState : Type := {
  st_slot : Slot;
  st_hashTreeRoot : RootHex;
  proposers : list nat;
  currentShuffling : list nat;
  nextShuffling : list nat;
  previousShuffling : list nat;
}.

(** [HeadSummary] *)
Record HeadSummary : Type := {
  head_stateRoot : RootHex;
  head_blockRoot : RootHex;
  head_slot : Slot;
  head_epoch : Epoch;
  head_targetRoot : RootHex;
  dependantRootNext : RootHex;
  dependantRootCurr : RootHex;
  dependantRootPrev : RootHex;
}.

(** [phase0.Checkpoint] *)
Record Checkpoint : Type := {
  epoch : Epoch;
  root : RootHex;
}.

(** [allForks.BeaconBlock]: the fields [getPreState] reads. *)
Record BeaconBlock : Type := {
  block_slot : Slot;
  block_parentRoot : RootHex;
}.

(** The second argument of [CheckpointStateCache.getLatest]: an epoch or
    JavaScript's [Infinity]. *)
Inductive MaxEpoch : Type :=
| UpTo (maxEpoch : Epoch)
| Infinity.

(** [CheckpointStateCache], seen through the query the regenerator makes. *)
Record CheckpointStateCache : Type := {
  getLatest : RootHex -> MaxEpoch -> option CachedBeaconState;
}.

Inductive RegenCaller : Type :=
| regenHeadState
| caller (name : string).

(** [RegenFnName], the entrypoint label of the metrics. *)
Inductive RegenFnName : Type :=
| FnGetPreState
| FnGetCheckpointState
| FnGetBlockSlotState
| FnGetState.

(** [RegenRequest]: key and arguments of a queued regeneration. *)
Inductive RegenRequest : Type :=
| ReqGetPreState (block : BeaconBlock) (rCaller : RegenCaller)
| ReqGetCheckpointState (cp : Checkpoint) (rCaller : RegenCaller)
| ReqGetBlockSlotState (blockRoot : RootHex) (s : Slot) (rCaller : RegenCaller)
| ReqGetState (stateRoot : RootHex) (rCaller : RegenCaller).

(** The counters of [IMetrics] the facade increments, each kept as the log
    of the labels it was incremented with. *)
Record IMetrics : Type := {
  regenFnCallTotal : list (RegenCaller * RegenFnName);
  regenFnQueuedTotal : list (RegenCaller * RegenFnName);
}.

(** A [WeakRef]: [deref] gives the state while it is alive. *)
Definition WeakRef (A : Type) : Type := option A.
Definition deref {A : Type} (w : WeakRef A) : option A := w.

(** [DependantRootCache]: epoch, then dependant root, then the set of weak
    references in insertion order. *)
Abbreviation DependantRootCache :=
  (gmap Z (gmap string (list (WeakRef CachedBeaconState)))).

(** ** Bounded job queue *)

Definition REGEN_QUEUE_MAX_LEN : nat := 256.

(** A job of the queue: the identity of the promise handed to the
    submitter, and the request. *)
Record Job : Type := {
  job_id : nat;
  job_request : RegenRequest;
}.

(** Modelled from the spec: [JobItemQueue] of [util/queue] is constructed
    by the source but defined elsewhere. Following section 4.5, it holds
    the pending jobs in FIFO order and at most one job in flight, and it is
    bounded by [maxLength]. *)
Record JobItemQueue : Type := {
  maxLength : nat;
  pending : list Job;
  inFlight : option Job;
  nextJobId : nat;
}.

Definition newJobItemQueue (maxLen : nat) : JobItemQueue :=
  {| maxLength := maxLen; pending := []; inFlight := None; nextJobId := O |}.

(** In-flight plus pending jobs. *)
Definition queueLength (q : JobItemQueue) : nat :=
  (length (pending q) + match inFlight q with Some _ => 1 | None => 0 end)%nat.

(** Modelled from the spec: [JobItemQueue.push]. A submission at capacity
    fails with the queue's error; otherwise the job joins the pending jobs
    last and its promise is handed out. *)
Definition push (q : JobItemQueue) (req : RegenRequest)
  : Result RegenError (JobItemQueue * nat) :=
  if decide (maxLength q <= queueLength q)%nat then Err QUEUE_MAX_LENGTH
  else
    Ok ({| maxLength := maxLength q;
           pending := pending q ++ [{| job_id := nextJobId q;
                                       job_request := req |}];
           inFlight := inFlight q;
           nextJobId := S (nextJobId q) |},
        nextJobId q).

(** Modelled from the spec: the single worker takes the oldest pending job
    when no job is in flight. *)
Definition runJob (q : JobItemQueue) : JobItemQueue :=
  match inFlight q, pending q with
  | None, j :: rest =>
      {| maxLength := maxLength q; pending := rest; inFlight := Some j;
         nextJobId := nextJobId q |}
  | _, _ => q
  end.

(** Modelled from the spec: the job in flight settles and leaves the
    queue. *)
Definition settleJob (q : JobItemQueue) : JobItemQueue :=
  {| maxLength := maxLength q; pending := pending q; inFlight := None;
     nextJobId := nextJobId q |}.

(** Modelled from the spec: the cancellation signal rejects every pending
    and in-flight job. *)
Definition abortJobs (q : JobItemQueue) : JobItemQueue :=
  {| maxLength := maxLength q; pending := []; inFlight := None;
     nextJobId := nextJobId q |}.

(** An [async] method hands back a promise: already resolved, already
    rejected, or pending on the job with the given identity. *)
Inductive Promise (A : Type) : Type :=
| Resolved (a : A)
| Rejected (e : RegenError)
| Pending (id : nat).
Arguments Resolved {A} a.
Arguments Rejected {A} e.
Arguments Pending {A} id.

(** The callback [setHead] chains on its [getState] promise:
    [(state) => { this.headState = state; }]. *)
Inductive Callback : Type :=
| InstallHeadState.

(** ** The regenerator object *)

(** The fields of [QueuedStateRegenerator] that the methods below read or
    write. [thenCallbacks] holds the callbacks chained on promises that are
    still pending, by job; [microtasks] holds callbacks whose promise was
    already resolved and that run once the current call has returned. *)
Record QueuedStateRegenerator : Type := {
  jobQueue : JobItemQueue;
  forkChoice : IForkChoice;
  stateCache : gmap string CachedBeaconState;
  checkpointStateCache : CheckpointStateCache;
  metrics : option IMetrics;
  head : HeadSummary;
  headState : option CachedBeaconState;
  dependantRootCacheNext : DependantRootCache;
  store : Epoch -> RootHex -> option CachedBeaconState;
  thenCallbacks : list (nat * Callback);
  microtasks : list (Callback * CachedBeaconState);
}.

Definition with_jobQueue (q : JobItemQueue) (this : QueuedStateRegenerator) :=
  {| jobQueue := q; forkChoice := forkChoice this;
     stateCache := stateCache this;
     checkpointStateCache := checkpointStateCache this;
     metrics := metrics this; head := head this;
     headState := headState this;
     dependantRootCacheNext := dependantRootCacheNext this;
     store := store this; thenCallbacks := thenCallbacks this;
     microtasks := microtasks this |}.

Definition with_metrics (m : option IMetrics) (this : QueuedStateRegenerator) :=
  {| jobQueue := jobQueue this; forkChoice := forkChoice this;
     stateCache := stateCache this;
     checkpointStateCache := checkpointStateCache this;
     metrics := m; head := head this;
     headState := headState this;
     dependantRootCacheNext := dependantRootCacheNext this;
     store := store this; thenCallbacks := thenCallbacks this;
     microtasks := microtasks this |}.

Definition with_head (h : HeadSummary) (this : QueuedStateRegenerator) :=
  {| jobQueue := jobQueue this; forkChoice := forkChoice this;
     stateCache := stateCache this;
     checkpointStateCache := checkpointStateCache this;
     metrics := metrics this; head := h;
     headState := headState this;
     dependantRootCacheNext := dependantRootCacheNext this;
     store := store this; thenCallbacks := thenCallbacks this;
     microtasks := microtasks this |}.

Definition with_headState (s : option CachedBeaconState)
    (this : QueuedStateRegenerator) :=
  {| jobQueue := jobQueue this; forkChoice := forkChoice this;
     stateCache := stateCache this;
     checkpointStateCache := checkpointStateCache this;
     metrics := metrics this; head := head this;
     headState := s;
     dependantRootCacheNext := dependantRootCacheNext this;
     store := store this; thenCallbacks := thenCallbacks this;
     microtasks := microtasks this |}.

Definition with_dependantRootCacheNext (c : DependantRootCache)
    (this : QueuedStateRegenerator) :=
  {| jobQueue := jobQueue this; forkChoice := forkChoice this;
     stateCache := stateCache this;
     checkpointStateCache := checkpointStateCache this;
     metrics := metrics this; head := head this;
     headState := headState this;
     dependantRootCacheNext := c;
     store := store this; thenCallbacks := thenCallbacks this;
     microtasks := microtasks this |}.

Definition with_callbacks (cbs : list (nat * Callback))
    (tasks : list (Callback * CachedBeaconState))
    (this : QueuedStateRegenerator) :=
  {| jobQueue := jobQueue this; forkChoice := forkChoice this;
     stateCache := stateCache this;
     checkpointStateCache := checkpointStateCache this;
     metrics := metrics this; head := head this;
     headState := headState this;
     dependantRootCacheNext := dependantRootCacheNext this;
     store := store this; thenCallbacks := cbs;
     microtasks := tasks |}.

(** What the constructor establishes: the head it was given, a queue of
    [REGEN_QUEUE_MAX_LEN] with no job, no head state, and nothing chained
    yet. The collaborators come from [modules]. *)
Definition constructed (this : QueuedStateRegenerator) : Prop :=
  jobQueue this = newJobItemQueue REGEN_QUEUE_MAX_LEN /\
  headState this = None /\
  thenCallbacks this = [] /\
  microtasks this = [].

(** [this.metrics?.regenFnCallTotal.inc({caller, entrypoint})] *)
Definition incCallTotal (rCaller : RegenCaller) (fn : RegenFnName)
    (this : QueuedStateRegenerator) : QueuedStateRegenerator :=
  match metrics this with
  | Some m =>
      with_metrics
        (Some {| regenFnCallTotal := regenFnCallTotal m ++ [(rCaller, fn)];
                 regenFnQueuedTotal := regenFnQueuedTotal m |}) this
  | None => this
  end.

(** [this.metrics?.regenFnQueuedTotal.inc({caller, entrypoint})] *)
Definition incQueuedTotal (rCaller : RegenCaller) (fn : RegenFnName)
    (this : QueuedStateRegenerator) : QueuedStateRegenerator :=
  match metrics this with
  | Some m =>
      with_metrics
        (Some {| regenFnCallTotal := regenFnCallTotal m;
                 regenFnQueuedTotal := regenFnQueuedTotal m ++ [(rCaller, fn)] |})
        this
  | None => this
  end.

(** [return this.jobQueue.push(request)] inside an [async] method. *)
Definition enqueue (this : QueuedStateRegenerator) (req : RegenRequest)
  : QueuedStateRegenerator * Promise CachedBeaconState :=
  match push (jobQueue this) req with
  | Ok (q, id) => (with_jobQueue q this, Pending id)
  | Err e => (this, Rejected e)
  end.

Definition getHeadState (this : QueuedStateRegenerator)
  : option CachedBeaconState :=
  match headState this with
  | Some s => Some s
  | None =>
      (* Fallback, check if head state is in cache; an empty string is
         falsy *)
      if decide (head_stateRoot (head this) = EmptyString) then None
      else stateCache this !! head_stateRoot (head this)
  end.

Definition getState (this : QueuedStateRegenerator) (stateRoot : RootHex)
    (rCaller : RegenCaller)
  : QueuedStateRegenerator * Promise CachedBeaconState :=
  let this := incCallTotal rCaller FnGetState this in
  (* First attempt to fetch the state from cache before queueing *)
  match stateCache this !! stateRoot with
  | Some state => (this, Resolved state)
  | None =>
      (* The state is not immediately available in the cache, enqueue the
         job *)
      let this := incQueuedTotal rCaller FnGetState this in
      enqueue this (ReqGetState stateRoot rCaller)
  end.

Section WithPreset.

(** [SLOTS_PER_EPOCH] of [@chainsafe/lodestar-params]: 32 on mainnet. *)
Variable SLOTS_PER_EPOCH : Z.

(** Modelled from the spec: [computeStartSlotAtEpoch] and
    [computeEpochAtSlot] of the state-transition package are imported by
    the source but defined elsewhere; they are the specification's
    [first_slot_of_epoch] and [epoch], over epochs of [SLOTS_PER_EPOCH]
    slots. *)
Definition computeStartSlotAtEpoch (epoch : Epoch) : Slot :=
  epoch * SLOTS_PER_EPOCH.

Definition computeEpochAtSlot (s : Slot) : Epoch :=
  s / SLOTS_PER_EPOCH.

(** ** Dependant-root resolver *)

(** The [while (block !== null)] loop of [getDependantRootAtEpoch]. One unit
    of fuel pays for one evaluation of the loop condition. [None] is a run
    that needs more fuel; [Some None] is the loop left with [block === null];
    [Some (Some r)] is [return r] from inside the loop. *)
Fixpoint dependantRootLoop (fuel : nat) (forkChoice : IForkChoice)
    (dependantRootNextSlot : Slot) (block : option IProtoBlock)
  : option (option RootHex) :=
  match fuel with
  | O => None
  | S fuel' =>
      match block with
      | None => Some None
      | Some b =>
          if decide (slot b = dependantRootNextSlot) then
            Some (Some (parentRoot b))
          else if decide (slot b < dependantRootNextSlot) then
            Some (Some (blockRoot b))
          else if decide (blockRoot b = targetRoot b) then
            dependantRootLoop fuel' forkChoice dependantRootNextSlot
              (getBlockHex forkChoice (parentRoot b))
          else
            dependantRootLoop fuel' forkChoice dependantRootNextSlot
              (getBlockHex forkChoice (targetRoot b))
      end
  end.

Definition getDependantRootAtEpoch (fuel : nat) (forkChoice : IForkChoice)
    (fromBlock : IProtoBlock) (epoch : Epoch)
  : option (Result RegenError RootHex) :=
  if decide (epoch <= 0) then
    (* Handle close to genesis *)
    let finalizedCp := getFinalizedCheckpoint forkChoice in
    if decide (cp_epoch finalizedCp = 0) then
      Some (Ok (cp_rootHex finalizedCp))
    else
      Some (Err (BeforeFinalized (cp_epoch finalizedCp)))
  else
    let dependantRootNextSlot := computeStartSlotAtEpoch epoch in
    match dependantRootLoop fuel forkChoice dependantRootNextSlot
            (Some fromBlock) with
    | None => None
    | Some (Some root) => Some (Ok root)
    | Some None =>
        let finalizedEpoch :=
          cp_epoch (getFinalizedCheckpoint forkChoice) in
        if decide (epoch < cp_epoch (getFinalizedCheckpoint forkChoice)) then
          Some (Err (BeforeFinalized finalizedEpoch))
        else
          Some (Err (Unresolvable (blockRoot fromBlock) (slot fromBlock)))
    end.

(** The resolver as the specification words it: a walk from a block that
    stops at the epoch boundary ([parent_root]) or below it ([block_root]),
    and otherwise advances to the parent of a first-in-epoch block and to
    the target of any other block. *)
Inductive dependant_root_walk (forkChoice : IForkChoice) (target_slot : Slot)
  : IProtoBlock -> RootHex -> Prop :=
| walk_at_target b :
    slot b = target_slot ->
    dependant_root_walk forkChoice target_slot b (parentRoot b)
| walk_below_target b :
    slot b < target_slot ->
    dependant_root_walk forkChoice target_slot b (blockRoot b)
| walk_step_parent b p r :
    target_slot < slot b ->
    blockRoot b = targetRoot b ->
    getBlockHex forkChoice (parentRoot b) = Some p ->
    dependant_root_walk forkChoice target_slot p r ->
    dependant_root_walk forkChoice target_slot b r
| walk_step_target b t r :
    target_slot < slot b ->
    blockRoot b <> targetRoot b ->
    getBlockHex forkChoice (targetRoot b) = Some t ->
    dependant_root_walk forkChoice target_slot t r ->
    dependant_root_walk forkChoice target_slot b r.

(** The block the loop moves to from [b], when it moves. *)
Definition nextBlock (forkChoice : IForkChoice) (b : IProtoBlock)
  : option IProtoBlock :=
  if decide (blockRoot b = targetRoot b)
  then getBlockHex forkChoice (parentRoot b)
  else getBlockHex forkChoice (targetRoot b).

(** Every hop of the walk goes to a strictly lower slot: what a fork choice
    guarantees of its parent and target links. *)
Definition links_descend (forkChoice : IForkChoice) (b : IProtoBlock) : Prop :=
  forall b', nextBlock forkChoice b = Some b' -> slot b' < slot b.

Definition descending (forkChoice : IForkChoice) : Prop :=
  forall root b, getBlockHex forkChoice root = Some b ->
                 links_descend forkChoice b.

(** ** Pre-state lookup and head tracking *)

Definition getPreState (this : QueuedStateRegenerator) (block : BeaconBlock)
    (rCaller : RegenCaller)
  : QueuedStateRegenerator * Promise CachedBeaconState :=
  let this := incCallTotal rCaller FnGetPreState this in
  (* First attempt to fetch the state from caches before queueing *)
  let parentRoot := block_parentRoot block in
  match getBlockHex (forkChoice this) parentRoot with
  | None => (this, Rejected (BLOCK_NOT_IN_FORKCHOICE parentRoot))
  | Some parentBlock =>
      let parentEpoch := computeEpochAtSlot (slot parentBlock) in
      let blockEpoch := computeEpochAtSlot (block_slot block) in
      (* Check the checkpoint cache (if the pre-state is a checkpoint
         state) *)
      match (if decide (parentEpoch < blockEpoch)
             then getLatest (checkpointStateCache this) parentRoot
                    (UpTo blockEpoch)
             else None) with
      | Some checkpointState => (this, Resolved checkpointState)
      | None =>
          (* Check the state cache, only if the state doesn't need to go
             through an epoch transition. *)
          match (if decide (parentEpoch = blockEpoch)
                 then stateCache this !! stateRoot parentBlock
                 else None) with
          | Some state => (this, Resolved state)
          | None =>
              let this := incQueuedTotal rCaller FnGetPreState this in
              enqueue this (ReqGetPreState block rCaller)
          end
      end
  end.

(** Sequencing of calls that may throw, over fuelled runs: [None] is a run
    that needs more fuel, [Some (Err e)] a throw that ends the caller. *)
Definition andThen {A B : Type} (m : option (Result RegenError A))
    (k : A -> option (Result RegenError B)) : option (Result RegenError B) :=
  match m with
  | None => None
  | Some (Err e) => Some (Err e)
  | Some (Ok a) => k a
  end.

Notation "'call' x <- m ; k" := (andThen m (fun x => k))
  (at level 10, x name, m at level 100, k at level 200,
   format "'[v' 'call'  x  <-  m ; '/' k ']'").

(** [promise.then(callback)]: the callback waits for the job of a pending
    promise, is queued as a microtask for a resolved one, and is skipped
    for a rejected one. *)
Definition promiseThen (cb : Callback) (p : Promise CachedBeaconState)
    (this : QueuedStateRegenerator) : QueuedStateRegenerator :=
  match p with
  | Pending id =>
      with_callbacks (thenCallbacks this ++ [(id, cb)]) (microtasks this) this
  | Resolved state =>
      with_callbacks (thenCallbacks this) (microtasks this ++ [(cb, state)])
        this
  | Rejected _ => this
  end.

(** Running a callback with the value of its promise. *)
Definition runCallback (cb : Callback) (state : CachedBeaconState)
    (this : QueuedStateRegenerator) : QueuedStateRegenerator :=
  match cb with
  | InstallHeadState => with_headState (Some state) this
  end.

(** The [const headState = ... ? potentialHeadState : ... || ...]
    expression of [setHead]. *)
Definition selectHeadState (this : QueuedStateRegenerator)
    (newHead : IProtoBlock) (potentialHeadState : option CachedBeaconState)
  : option CachedBeaconState :=
  let fromCaches :=
    match getLatest (checkpointStateCache this) (blockRoot newHead) Infinity with
    | Some state => Some state
    | None => stateCache this !! stateRoot newHead
    end in
  match potentialHeadState with
  | Some potential =>
      (* Compare the slot to prevent comparing stateRoot which should be
         more expensive *)
      if decide (slot newHead = st_slot potential) then
        if decide (stateRoot newHead = st_hashTreeRoot potential)
        then Some potential
        else fromCaches
      else fromCaches
  | None => fromCaches
  end.

Definition setHead (fuel : nat) (this : QueuedStateRegenerator)
    (newHead : IProtoBlock) (potentialHeadState : option CachedBeaconState)
  : option (Result RegenError QueuedStateRegenerator) :=
  let headEpoch := computeEpochAtSlot (slot newHead) in
  call next <- getDependantRootAtEpoch fuel (forkChoice this) newHead
                 headEpoch;
  call curr <- getDependantRootAtEpoch fuel (forkChoice this) newHead
                 (Z.max (headEpoch - 1) 0);
  call prev <- getDependantRootAtEpoch fuel (forkChoice this) newHead
                 (Z.max (headEpoch - 2) 0);
  let this :=
    with_head {| head_blockRoot := blockRoot newHead;
                 head_stateRoot := stateRoot newHead;
                 head_slot := slot newHead;
                 head_epoch := headEpoch;
                 head_targetRoot := targetRoot newHead;
                 dependantRootNext := next;
                 dependantRootCurr := curr;
                 dependantRootPrev := prev |} this in
  match selectHeadState this newHead potentialHeadState with
  | Some state =>
      (* State is available syncronously *)
      Some (Ok (with_headState (Some state) this))
  | None =>
      (* Make the state temporarily unavailable, while regen gets the
         state. *)
      let this := with_headState None this in
      let '(this, promise) :=
        getState this (stateRoot newHead) regenHeadState in
      Some (Ok (promiseThen InstallHeadState promise this))
  end.

(** The job in flight resolves with [state]: it leaves the queue and the
    callbacks chained on its promise run. *)
Definition jobResolved (this : QueuedStateRegenerator) (id : nat)
    (state : CachedBeaconState) : QueuedStateRegenerator :=
  let mine := filter (fun '(i, _) => i = id) (thenCallbacks this) in
  let others := filter (fun '(i, _) => i <> id) (thenCallbacks this) in
  let this := with_jobQueue (settleJob (jobQueue this)) this in
  let this := with_callbacks others (microtasks this) this in
  foldl (fun acc '(_, cb) => runCallback cb state acc) this mine.

(** The job in flight rejects: it leaves the queue, and the callbacks
    chained with [then] on its promise are dropped. *)
Definition jobRejected (this : QueuedStateRegenerator) (id : nat)
  : QueuedStateRegenerator :=
  let others := filter (fun '(i, _) => i <> id) (thenCallbacks this) in
  with_callbacks others (microtasks this)
    (with_jobQueue (settleJob (jobQueue this)) this).

(** The microtasks left by the last call run. *)
Definition runMicrotasks (this : QueuedStateRegenerator)
  : QueuedStateRegenerator :=
  foldl (fun acc '(cb, state) => runCallback cb state acc)
        (with_callbacks (thenCallbacks this) [] this) (microtasks this).

(** ** Attester shuffling lookup *)

(** The [for (const stateWeakRef of states)] loop: the first live
    reference wins, the dead ones met before it are deleted from the set.
    Gives the state found and the set as the loop leaves it. *)
Fixpoint probe (states : list (WeakRef CachedBeaconState))
  : option CachedBeaconState * list (WeakRef CachedBeaconState) :=
  match states with
  | [] => (None, [])
  | stateWeakRef :: rest =>
      match deref stateWeakRef with
      | Some state => (Some state, stateWeakRef :: rest)
      | None => probe rest
      end
  end.

(** [this.dependantRootCacheNext.get(epoch)?.get(dependantRoot)] followed by
    the loop over the set found. *)
Definition probeIndex (this : QueuedStateRegenerator) (e : Epoch)
    (dependantRoot : RootHex)
  : QueuedStateRegenerator * option CachedBeaconState :=
  match dependantRootCacheNext this !! e with
  | None => (this, None)
  | Some byRoot =>
      match byRoot !! dependantRoot with
      | None => (this, None)
      | Some states =>
          let '(found, states') := probe states in
          (with_dependantRootCacheNext
             (<[e := <[dependantRoot := states']> byRoot]>
                (dependantRootCacheNext this)) this,
           found)
      end
  end.

(** The [if (this.headState)] block of [getAttesterShuffling]. *)
Definition checkHeadShuffling (this : QueuedStateRegenerator)
    (epochCurr epochNext epochPrev : Epoch) (dependantRoot : RootHex)
  : option (list nat) :=
  match headState this with
  | Some hs =>
      if decide (head_epoch (head this) = epochCurr) then
        if decide (dependantRootCurr (head this) = dependantRoot)
        then Some (currentShuffling hs) else None
      else if decide (head_epoch (head this) = epochNext) then
        if decide (dependantRootNext (head this) = dependantRoot)
        then Some (nextShuffling hs) else None
      else if decide (head_epoch (head this) = epochPrev) then
        if decide (dependantRootPrev (head this) = dependantRoot)
        then Some (previousShuffling hs) else None
      else None
  | None => None
  end.

Definition getAttesterShuffling (fuel : nat) (this : QueuedStateRegenerator)
    (targetCheckpoint : Checkpoint)
  : option (QueuedStateRegenerator * Result RegenError (list nat)) :=
  match getBlockHex (forkChoice this) (root targetCheckpoint) with
  | None =>
      Some (this, Err (TargetBlockNotFound (root targetCheckpoint)
                         (epoch targetCheckpoint)))
  | Some targetBlock =>
      let epochCurr := epoch targetCheckpoint in
      let epochNext := Z.max (epochCurr - 1) 0 in
      let epochPrev := epochCurr + 1 in
      match getDependantRootAtEpoch fuel (forkChoice this) targetBlock
              epochNext with
      | None => None
      | Some (Err e) => Some (this, Err e)
      | Some (Ok dependantRoot) =>
          (* Check head state *)
          match checkHeadShuffling this epochCurr epochNext epochPrev
                  dependantRoot with
          | Some shuffling => Some (this, Ok shuffling)
          | None =>
              (* Try with current shufflings first *)
              let '(this, found) := probeIndex this epochCurr dependantRoot in
              match found with
              | Some state => Some (this, Ok (currentShuffling state))
              | None =>
                  (* Then next shufflings *)
                  let '(this, found) :=
                    probeIndex this epochNext dependantRoot in
                  match found with
                  | Some state => Some (this, Ok (nextShuffling state))
                  | None =>
                      (* Then previous shufflings *)
                      let '(this, found) :=
                        probeIndex this epochPrev dependantRoot in
                      match found with
                      | Some state =>
                          Some (this, Ok (previousShuffling state))
                      | None =>
                          (* go fetch to the DB *)
                          match store this epochNext dependantRoot with
                          | Some state => Some (this, Ok (nextShuffling state))
                          | None => Some (this, Err Persistent)
                          end
                      end
                  end
              end
          end
      end
  end.

(** The lookup as the specification words it. The bucket of the index at
    an epoch and a dependant root, and the first live state of a bucket: *)
Definition bucket (this : QueuedStateRegenerator) (e : Epoch)
    (dependantRoot : RootHex) : list (WeakRef CachedBeaconState) :=
  match dependantRootCacheNext this !! e with
  | Some byRoot => default [] (byRoot !! dependantRoot)
  | None => []
  end.

Definition first_live (refs : list (WeakRef CachedBeaconState))
  : option CachedBeaconState :=
  List.head (omap deref refs).

(** The three head checks, each with its own full condition, in order. *)
Definition head_shuffling_spec (this : QueuedStateRegenerator)
    (E E_next E_prev : Epoch) (D : RootHex) : option (list nat) :=
  match headState this with
  | None => None
  | Some head_state =>
      if decide (head_epoch (head this) = E
                 /\ dependantRootCurr (head this) = D)
      then Some (currentShuffling head_state)
      else if decide (head_epoch (head this) = E_next
                      /\ dependantRootNext (head this) = D)
      then Some (nextShuffling head_state)
      else if decide (head_epoch (head this) = E_prev
                      /\ dependantRootPrev (head this) = D)
      then Some (previousShuffling head_state)
      else None
  end.

(** Head first, then the buckets at [E], [E_next], [E_prev] in that order,
    then the persistent reader at [(E_next, D)]. *)
Definition attester_shuffling_spec (fuel : nat)
    (this : QueuedStateRegenerator) (target : Checkpoint)
  : option (Result RegenError (list nat)) :=
  match getBlockHex (forkChoice this) (root target) with
  | None => Some (Err (TargetBlockNotFound (root target) (epoch target)))
  | Some target_block =>
      let E := epoch target in
      let E_next := Z.max (E - 1) 0 in
      let E_prev := E + 1 in
      call D <- getDependantRootAtEpoch fuel (forkChoice this) target_block
                  E_next;
      match head_shuffling_spec this E E_next E_prev D with
      | Some shuffling => Some (Ok shuffling)
      | None =>
          match first_live (bucket this E D) with
          | Some state => Some (Ok (currentShuffling state))
          | None =>
              match first_live (bucket this E_next D) with
              | Some state => Some (Ok (nextShuffling state))
              | None =>
                  match first_live (bucket this E_prev D) with
                  | Some state => Some (Ok (previousShuffling state))
                  | None =>
                      match store this E_next D with
                      | Some state => Some (Ok (nextShuffling state))
                      | None => Some (Err Persistent)
                      end
                  end
              end
          end
      end
  end.

(** ** Life of the object *)

(** One step of the object: a method call that returns, a move of the
    queue's worker, a promise settling, or a change in the collaborators
    the object only holds references to (fork choice, caches, persistent
    store, metrics, and the index whose weak references die). *)
Inductive step : QueuedStateRegenerator -> QueuedStateRegenerator -> Prop :=
| step_setHead fuel this newHead potential this' :
    setHead fuel this newHead potential = Some (Ok this') ->
    step this this'
| step_getState this stateRoot rCaller :
    step this (getState this stateRoot rCaller).1
| step_getPreState this block rCaller :
    step this (getPreState this block rCaller).1
| step_getAttesterShuffling fuel this target this' res :
    getAttesterShuffling fuel this target = Some (this', res) ->
    step this this'
| step_runJob this :
    step this (with_jobQueue (runJob (jobQueue this)) this)
| step_jobResolved this job state :
    inFlight (jobQueue this) = Some job ->
    step this (jobResolved this (job_id job) state)
| step_jobRejected this job :
    inFlight (jobQueue this) = Some job ->
    step this (jobRejected this (job_id job))
| step_microtasks this :
    step this (runMicrotasks this)
| step_abort this :
    step this (with_callbacks [] (microtasks this)
                 (with_jobQueue (abortJobs (jobQueue this)) this))
| step_collaborators this fc sc cpc m idx db :
    step this
      {| jobQueue := jobQueue this; forkChoice := fc; stateCache := sc;
         checkpointStateCache := cpc; metrics := m; head := head this;
         headState := headState this; dependantRootCacheNext := idx;
         store := db; thenCallbacks := thenCallbacks this;
         microtasks := microtasks this |}.

Definition reachable (this : QueuedStateRegenerator) : Prop :=
  exists init, constructed init /\ rtc step init this.

(** A head summary whose three dependant roots were resolved together: at
    epoch 0 all three are the root resolved for epoch 0. *)
Definition head_coherent (h : HeadSummary) : Prop :=
  head_epoch h = 0 ->
  dependantRootCurr h = dependantRootNext h /\
  dependantRootPrev h = dependantRootNext h.

(** The head comes from [setHead] as soon as a head state is installed or
    awaited. *)
Definition head_settled (this : QueuedStateRegenerator) : Prop :=
  head_coherent (head this) \/
  (headState this = None /\ thenCallbacks this = [] /\ microtasks this = []).

(** The queue keeps the bound it was constructed with. *)
Definition queue_bounded (this : QueuedStateRegenerator) : Prop :=
  maxLength (jobQueue this) = REGEN_QUEUE_MAX_LEN /\
  (queueLength (jobQueue this) <= REGEN_QUEUE_MAX_LEN)%nat.

(** ** Facts about the dependant-root resolver *)

Lemma dependantRootLoop_fuel_mono fuel fuel' fc target block res :
  dependantRootLoop fuel fc target block = Some res ->
  (fuel <= fuel')%nat ->
  dependantRootLoop fuel' fc target block = Some res.
Proof.
  revert fuel' block.
  induction fuel as [|fuel IH]; intros fuel' block Hrun Hle; [discriminate|].
  destruct fuel' as [|fuel']; [lia|].
  simpl in *. destruct block as [b|]; [|done].
  repeat case_decide; try done; apply IH; auto with lia.
Qed.

Lemma dependantRootLoop_walk fuel fc target b r :
  dependantRootLoop fuel fc target (Some b) = Some (Some r) ->
  dependant_root_walk fc target b r.
Proof.
  revert b. induction fuel as [|fuel IH]; intros b Hrun; [discriminate|].
  simpl in Hrun.
  destruct (decide (slot b = target)) as [Heq|Hne].
  { injection Hrun as <-. by apply walk_at_target. }
  destruct (decide (slot b < target)) as [Hlt|Hge].
  { injection Hrun as <-. by apply walk_below_target. }
  destruct (decide (blockRoot b = targetRoot b)) as [Hfirst|Hinner].
  - destruct (getBlockHex fc (parentRoot b)) as [p|] eqn:Hp.
    + eapply walk_step_parent; eauto with lia.
    + destruct fuel; discriminate.
  - destruct (getBlockHex fc (targetRoot b)) as [t|] eqn:Ht.
    + eapply walk_step_target; eauto with lia.
    + destruct fuel; discriminate.
Qed.

Lemma walk_dependantRootLoop fc target b r :
  dependant_root_walk fc target b r ->
  exists fuel, dependantRootLoop fuel fc target (Some b) = Some (Some r).
Proof.
  induction 1 as [b Heq|b Hlt|b p r Hgt Hfirst Hp _ [fuel IH]
                 |b t r Hgt Hinner Ht _ [fuel IH]].
  - exists 1%nat. simpl. by rewrite decide_True.
  - exists 1%nat. simpl.
    rewrite decide_False by lia. by rewrite decide_True.
  - exists (S fuel). simpl.
    rewrite decide_False by lia. rewrite decide_False by lia.
    rewrite decide_True by done. by rewrite Hp.
  - exists (S fuel). simpl.
    rewrite decide_False by lia. rewrite decide_False by lia.
    rewrite decide_False by done. by rewrite Ht.
Qed.

(** The walk of the specification has one answer at most. *)
Lemma dependant_root_walk_deterministic fc target b r1 r2 :
  dependant_root_walk fc target b r1 ->
  dependant_root_walk fc target b r2 ->
  r1 = r2.
Proof.
  intros H1 H2.
  apply walk_dependantRootLoop in H1 as [f1 H1].
  apply walk_dependantRootLoop in H2 as [f2 H2].
  apply dependantRootLoop_fuel_mono with (fuel' := (f1 + f2)%nat) in H1;
    [|lia].
  apply dependantRootLoop_fuel_mono with (fuel' := (f1 + f2)%nat) in H2;
    [|lia].
  congruence.
Qed.

(** Over links that descend, the loop ends within the distance in slots
    to the target, plus the two evaluations that end it. *)
Lemma dependantRootLoop_terminates fc target :
  descending fc ->
  forall fuel b,
    links_descend fc b ->
    (Z.to_nat (slot b - target) + 2 <= fuel)%nat ->
    is_Some (dependantRootLoop fuel fc target (Some b)).
Proof.
  intros Hfc fuel.
  induction fuel as [|fuel IH]; intros b Hb Hfuel; [lia|].
  simpl.
  destruct (decide (slot b = target)); [by eexists|].
  destruct (decide (slot b < target)); [by eexists|].
  specialize (Hb).
  unfold links_descend, nextBlock in Hb.
  destruct (decide (blockRoot b = targetRoot b)).
  - destruct (getBlockHex fc (parentRoot b)) as [p|] eqn:Hp.
    + apply IH; [by eapply Hfc|].
      specialize (Hb p eq_refl). lia.
    + destruct fuel; [lia|]. by eexists.
  - destruct (getBlockHex fc (targetRoot b)) as [t|] eqn:Ht.
    + apply IH; [by eapply Hfc|].
      specialize (Hb t eq_refl). lia.
    + destruct fuel; [lia|]. by eexists.
Qed.

Lemma getDependantRootAtEpoch_terminates fc b E :
  descending fc ->
  links_descend fc b ->
  forall fuel,
    (Z.to_nat (slot b - computeStartSlotAtEpoch E) + 2 <= fuel)%nat ->
    is_Some (getDependantRootAtEpoch fuel fc b E).
Proof.
  intros Hfc Hb fuel Hfuel. unfold getDependantRootAtEpoch.
  case_decide; [case_decide; by eexists|].
  destruct (dependantRootLoop_terminates fc _ Hfc fuel b Hb Hfuel)
    as [[r|] ->]; [by eexists|].
  case_decide; by eexists.
Qed.

Lemma getDependantRootAtEpoch_fuel_mono fuel fuel' fc b E res :
  getDependantRootAtEpoch fuel fc b E = Some res ->
  (fuel <= fuel')%nat ->
  getDependantRootAtEpoch fuel' fc b E = Some res.
Proof.
  unfold getDependantRootAtEpoch. intros Hrun Hle.
  case_decide; [done|].
  destruct (dependantRootLoop fuel fc _ _) as [r|] eqn:Hloop; [|done].
  by rewrite (dependantRootLoop_fuel_mono _ _ _ _ _ _ Hloop Hle).
Qed.

(** C1. For an epoch [E >= 1], [getDependantRootAtEpoch] returns a root
    exactly when the walk of the specification from [fromBlock], with
    [target_slot] the first slot of [E], reaches it: [parent_root] of a
    block at [target_slot], [block_root] of a block below it, and from a
    block above it the walk goes on at its parent when its [block_root] is
    its [target_root] and at its target otherwise. *)
Theorem getDependantRootAtEpoch_follows_walk fc fromBlock E r :
  1 <= E ->
  (exists fuel, getDependantRootAtEpoch fuel fc fromBlock E = Some (Ok r))
  <-> dependant_root_walk fc (computeStartSlotAtEpoch E) fromBlock r.
Proof.
  intros HE. split.
  - intros [fuel Hrun]. unfold getDependantRootAtEpoch in Hrun.
    rewrite decide_False in Hrun by lia.
    destruct (dependantRootLoop fuel fc _ _) as [[r'|]|] eqn:Hloop;
      [|by case_decide|done].
    injection Hrun as <-. by eapply dependantRootLoop_walk.
  - intros Hwalk. apply walk_dependantRootLoop in Hwalk as [fuel Hloop].
    exists fuel. unfold getDependantRootAtEpoch.
    rewrite decide_False by lia. by rewrite Hloop.
Qed.

(** C7. For epoch 0 the resolver answers from the finalized checkpoint
    alone, whatever the blocks of the fork choice, the block it starts at
    and the fuel (none is needed, no ancestor is visited): the finalized
    root when the finalized epoch is 0, and the error for an epoch before
    the finalized one otherwise. *)
Theorem getDependantRootAtEpoch_genesis fuel blocks finalizedCp fromBlock :
  getDependantRootAtEpoch fuel
    {| fc_blocks := blocks; fc_finalized := finalizedCp |} fromBlock 0
  = Some (if decide (cp_epoch finalizedCp = 0)
          then Ok (cp_rootHex finalizedCp)
          else Err (BeforeFinalized (cp_epoch finalizedCp))).
Proof.
  unfold getDependantRootAtEpoch, getFinalizedCheckpoint.
  destruct (decide (0 <= 0)) as [_|Hneg]; [|lia].
  cbn [fc_finalized]. by case_decide.
Qed.

(** ** Facts about the facade *)

(** The metrics counters touch nothing but [metrics]. *)
Lemma incCallTotal_frame c fn this :
  let this' := incCallTotal c fn this in
  jobQueue this' = jobQueue this /\ forkChoice this' = forkChoice this /\
  stateCache this' = stateCache this /\
  checkpointStateCache this' = checkpointStateCache this /\
  head this' = head this /\ headState this' = headState this /\
  dependantRootCacheNext this' = dependantRootCacheNext this /\
  store this' = store this /\
  thenCallbacks this' = thenCallbacks this /\
  microtasks this' = microtasks this.
Proof. unfold incCallTotal. by destruct (metrics this). Qed.

Lemma incQueuedTotal_frame c fn this :
  let this' := incQueuedTotal c fn this in
  jobQueue this' = jobQueue this /\ forkChoice this' = forkChoice this /\
  stateCache this' = stateCache this /\
  checkpointStateCache this' = checkpointStateCache this /\
  head this' = head this /\ headState this' = headState this /\
  dependantRootCacheNext this' = dependantRootCacheNext this /\
  store this' = store this /\
  thenCallbacks this' = thenCallbacks this /\
  microtasks this' = microtasks this.
Proof. unfold incQueuedTotal. by destruct (metrics this). Qed.

(** Enqueueing changes the queue only, and nothing when it refuses. *)
Lemma enqueue_frame this req :
  let this' := (enqueue this req).1 in
  forkChoice this' = forkChoice this /\
  stateCache this' = stateCache this /\
  checkpointStateCache this' = checkpointStateCache this /\
  metrics this' = metrics this /\
  head this' = head this /\ headState this' = headState this /\
  dependantRootCacheNext this' = dependantRootCacheNext this /\
  store this' = store this /\
  thenCallbacks this' = thenCallbacks this /\
  microtasks this' = microtasks this.
Proof. unfold enqueue. by destruct (push _ _) as [[q id]|e]. Qed.

(** A queue below its bound accepts the job, last in line. *)
Lemma enqueue_accepts this req :
  (queueLength (jobQueue this) < maxLength (jobQueue this))%nat ->
  (enqueue this req).2 = Pending (nextJobId (jobQueue this)) /\
  pending (jobQueue (enqueue this req).1)
  = pending (jobQueue this)
      ++ [{| job_id := nextJobId (jobQueue this); job_request := req |}] /\
  inFlight (jobQueue (enqueue this req).1) = inFlight (jobQueue this).
Proof.
  intros Hroom. unfold enqueue, push.
  rewrite decide_False by lia. done.
Qed.

(** A queue at its bound refuses the job and stays as it is. *)
Lemma enqueue_refuses this req :
  (maxLength (jobQueue this) <= queueLength (jobQueue this))%nat ->
  enqueue this req = (this, Rejected QUEUE_MAX_LENGTH).
Proof.
  intros Hfull. unfold enqueue, push. by rewrite decide_True.
Qed.

(** C5. When the state cache holds [s] under the state root [r],
    [getState(r, caller)] resolves with [s] at once and leaves the job
    queue as it was: no job is pushed. *)
Theorem getState_cache_hit this r c s :
  stateCache this !! r = Some s ->
  (getState this r c).2 = Resolved s /\
  jobQueue (getState this r c).1 = jobQueue this.
Proof.
  intros Hhit.
  pose proof (incCallTotal_frame c FnGetState this) as Hf.
  simpl in Hf. destruct Hf as (Hq & _ & Hsc & _).
  unfold getState. by rewrite Hsc, Hhit.
Qed.

(** C3. [getPreState(block, caller)]: rejected with
    [BLOCK_NOT_IN_FORKCHOICE] when the fork choice has no block for the
    parent root; otherwise resolved from the checkpoint cache, with no job
    pushed, when the parent's epoch is below the block's and [getLatest]
    hits; otherwise resolved from the state cache, with no job pushed, when
    both epochs are equal and the cache holds the parent's state root; and
    in every remaining case handed to the job queue. *)
Theorem getPreState_cases this block c :
  (getBlockHex (forkChoice this) (block_parentRoot block) = None ->
   (getPreState this block c).2
   = Rejected (BLOCK_NOT_IN_FORKCHOICE (block_parentRoot block)) /\
   jobQueue (getPreState this block c).1 = jobQueue this)
  /\
  (forall parent,
     getBlockHex (forkChoice this) (block_parentRoot block) = Some parent ->
     (forall s,
        computeEpochAtSlot (slot parent)
          < computeEpochAtSlot (block_slot block) ->
        getLatest (checkpointStateCache this) (block_parentRoot block)
          (UpTo (computeEpochAtSlot (block_slot block))) = Some s ->
        (getPreState this block c).2 = Resolved s /\
        jobQueue (getPreState this block c).1 = jobQueue this)
     /\
     (forall s,
        computeEpochAtSlot (slot parent)
          = computeEpochAtSlot (block_slot block) ->
        stateCache this !! stateRoot parent = Some s ->
        (getPreState this block c).2 = Resolved s /\
        jobQueue (getPreState this block c).1 = jobQueue this)
     /\
     (~ (computeEpochAtSlot (slot parent)
           < computeEpochAtSlot (block_slot block) /\
         is_Some (getLatest (checkpointStateCache this)
                    (block_parentRoot block)
                    (UpTo (computeEpochAtSlot (block_slot block))))) ->
      ~ (computeEpochAtSlot (slot parent)
           = computeEpochAtSlot (block_slot block) /\
         is_Some (stateCache this !! stateRoot parent)) ->
      getPreState this block c
      = enqueue (incQueuedTotal c FnGetPreState
                   (incCallTotal c FnGetPreState this))
          (ReqGetPreState block c))).
Proof.
  pose proof (incCallTotal_frame c FnGetPreState this) as Hf.
  simpl in Hf. destruct Hf as (Hq & Hfc & Hsc & Hcp & _).
  split.
  { intros Hmiss. unfold getPreState. by rewrite Hfc, Hmiss. }
  intros parent Hparent.
  assert (getPreState this block c
          = match (if decide (computeEpochAtSlot (slot parent)
                                < computeEpochAtSlot (block_slot block))
                   then getLatest (checkpointStateCache this)
                          (block_parentRoot block)
                          (UpTo (computeEpochAtSlot (block_slot block)))
                   else None) with
            | Some cs => (incCallTotal c FnGetPreState this, Resolved cs)
            | None =>
                match (if decide (computeEpochAtSlot (slot parent)
                                    = computeEpochAtSlot (block_slot block))
                       then stateCache this !! stateRoot parent
                       else None) with
                | Some st => (incCallTotal c FnGetPreState this, Resolved st)
                | None =>
                    enqueue (incQueuedTotal c FnGetPreState
                               (incCallTotal c FnGetPreState this))
                      (ReqGetPreState block c)
                end
            end) as ->.
  { unfold getPreState. by rewrite Hfc, Hparent, Hcp, Hsc. }
  split; [|split].
  - intros s Hlt Hhit. rewrite decide_True by done. by rewrite Hhit.
  - intros s Heq Hhit. rewrite decide_False by lia.
    rewrite decide_True by done. by rewrite Hhit.
  - intros Hnocp Hnosc.
    case_decide as Hlt.
    + destruct (getLatest _ _ _) as [s|] eqn:Hcs.
      { exfalso. apply Hnocp. split; [done|by eexists]. }
      rewrite decide_False by lia. done.
    + case_decide as Heq; [|done].
      destruct (stateCache this !! stateRoot parent) as [s|] eqn:Hs; [|done].
      exfalso. apply Hnosc. split; [done|by eexists].
Qed.

Lemma getState_frame this r c :
  let this' := (getState this r c).1 in
  forkChoice this' = forkChoice this /\
  stateCache this' = stateCache this /\
  checkpointStateCache this' = checkpointStateCache this /\
  head this' = head this /\ headState this' = headState this /\
  dependantRootCacheNext this' = dependantRootCacheNext this /\
  store this' = store this /\
  thenCallbacks this' = thenCallbacks this /\
  microtasks this' = microtasks this.
Proof.
  pose proof (incCallTotal_frame c FnGetState this) as Hc.
  pose proof (incQueuedTotal_frame c FnGetState
                (incCallTotal c FnGetState this)) as Hq.
  pose proof (enqueue_frame
                (incQueuedTotal c FnGetState (incCallTotal c FnGetState this))
                (ReqGetState r c)) as He.
  simpl in *. unfold getState.
  destruct (stateCache (incCallTotal c FnGetState this) !! r); simpl;
    intuition congruence.
Qed.

Lemma getPreState_frame this block c :
  let this' := (getPreState this block c).1 in
  head this' = head this /\ headState this' = headState this /\
  thenCallbacks this' = thenCallbacks this /\
  microtasks this' = microtasks this.
Proof.
  pose proof (incCallTotal_frame c FnGetPreState this) as Hc.
  pose proof (incQueuedTotal_frame c FnGetPreState
                (incCallTotal c FnGetPreState this)) as Hq.
  pose proof (enqueue_frame
                (incQueuedTotal c FnGetPreState
                   (incCallTotal c FnGetPreState this))
                (ReqGetPreState block c)) as He.
  simpl in *. unfold getPreState.
  destruct (getBlockHex _ _); [|simpl; intuition congruence].
  destruct (if decide _ then _ else _); [simpl; intuition congruence|].
  destruct (if decide _ then _ else _); simpl; intuition congruence.
Qed.

(** *** The bound of the queue *)

Lemma push_bounded q req q' id M :
  maxLength q = M -> (queueLength q <= M)%nat ->
  push q req = Ok (q', id) ->
  maxLength q' = M /\ (queueLength q' <= M)%nat.
Proof.
  intros HM Hlen. unfold push. case_decide as Hfull; [done|].
  intros [= <- <-]. unfold queueLength in *. simpl.
  rewrite length_app. simpl. lia.
Qed.

Lemma runJob_length q :
  maxLength (runJob q) = maxLength q /\ queueLength (runJob q) = queueLength q.
Proof.
  unfold runJob, queueLength.
  destruct (inFlight q) eqn:Hin; [by rewrite Hin|].
  destruct (pending q) eqn:Hp; [by rewrite Hin, Hp|]. simpl. lia.
Qed.

Lemma settleJob_length q :
  maxLength (settleJob q) = maxLength q /\
  (queueLength (settleJob q) <= queueLength q)%nat.
Proof. unfold settleJob, queueLength. simpl. lia. Qed.

Lemma queue_bounded_ext this this' :
  jobQueue this' = jobQueue this -> queue_bounded this -> queue_bounded this'.
Proof. unfold queue_bounded. by intros ->. Qed.

Lemma enqueue_bounded this req :
  queue_bounded this -> queue_bounded (enqueue this req).1.
Proof.
  intros [HM Hlen]. unfold enqueue.
  destruct (push (jobQueue this) req) as [[q id]|e] eqn:Hpush; [|done].
  by eapply push_bounded.
Qed.

Lemma getState_bounded this r c :
  queue_bounded this -> queue_bounded (getState this r c).1.
Proof.
  intros Hb. unfold getState.
  pose proof (incCallTotal_frame c FnGetState this) as Hc.
  pose proof (incQueuedTotal_frame c FnGetState
                (incCallTotal c FnGetState this)) as Hq.
  simpl in *.
  destruct (stateCache _ !! r); simpl.
  - eapply queue_bounded_ext; [|done]. intuition congruence.
  - apply enqueue_bounded. eapply queue_bounded_ext; [|done].
    intuition congruence.
Qed.

Lemma getPreState_bounded this block c :
  queue_bounded this -> queue_bounded (getPreState this block c).1.
Proof.
  intros Hb. unfold getPreState.
  pose proof (incCallTotal_frame c FnGetPreState this) as Hc.
  pose proof (incQueuedTotal_frame c FnGetPreState
                (incCallTotal c FnGetPreState this)) as Hq.
  simpl in *.
  assert (queue_bounded (incCallTotal c FnGetPreState this)) as Hb1.
  { eapply queue_bounded_ext; [|done]. intuition congruence. }
  destruct (getBlockHex _ _); [|done].
  destruct (if decide _ then _ else _); [done|].
  destruct (if decide _ then _ else _); [done|].
  apply enqueue_bounded. eapply queue_bounded_ext; [|exact Hb1].
  intuition congruence.
Qed.

(** *** What a returning [setHead] has done *)

Lemma promiseThen_frame cb p this :
  let this' := promiseThen cb p this in
  jobQueue this' = jobQueue this /\ forkChoice this' = forkChoice this /\
  stateCache this' = stateCache this /\
  head this' = head this /\ headState this' = headState this.
Proof. by destruct p. Qed.

Lemma setHead_returns_inv fuel this newHead potential this' :
  setHead fuel this newHead potential = Some (Ok this') ->
  exists next curr prev,
    getDependantRootAtEpoch fuel (forkChoice this) newHead
      (computeEpochAtSlot (slot newHead)) = Some (Ok next) /\
    getDependantRootAtEpoch fuel (forkChoice this) newHead
      (Z.max (computeEpochAtSlot (slot newHead) - 1) 0) = Some (Ok curr) /\
    getDependantRootAtEpoch fuel (forkChoice this) newHead
      (Z.max (computeEpochAtSlot (slot newHead) - 2) 0) = Some (Ok prev) /\
    let this1 :=
      with_head {| head_blockRoot := blockRoot newHead;
                   head_stateRoot := stateRoot newHead;
                   head_slot := slot newHead;
                   head_epoch := computeEpochAtSlot (slot newHead);
                   head_targetRoot := targetRoot newHead;
                   dependantRootNext := next;
                   dependantRootCurr := curr;
                   dependantRootPrev := prev |} this in
    match selectHeadState this1 newHead potential with
    | Some state => this' = with_headState (Some state) this1
    | None =>
        this' = promiseThen InstallHeadState
                  (getState (with_headState None this1) (stateRoot newHead)
                     regenHeadState).2
                  (getState (with_headState None this1) (stateRoot newHead)
                     regenHeadState).1
    end.
Proof.
  unfold setHead, andThen.
  destruct (getDependantRootAtEpoch fuel _ _ (computeEpochAtSlot _))
    as [[next|?]|]; [|done..].
  destruct (getDependantRootAtEpoch fuel _ _ (Z.max (_ - 1) 0))
    as [[curr|?]|]; [|done..].
  destruct (getDependantRootAtEpoch fuel _ _ (Z.max (_ - 2) 0))
    as [[prev|?]|]; [|done..].
  intros Hret. exists next, curr, prev. repeat split. simpl.
  destruct (selectHeadState _ _ _) as [state|]; [congruence|].
  destruct (getState _ _ _) as [this2 promise]. simpl. congruence.
Qed.

(** A head set by [setHead] is coherent. *)
Lemma setHead_head_coherent fuel this newHead potential this' :
  setHead fuel this newHead potential = Some (Ok this') ->
  head_coherent (head this').
Proof.
  intros Hret.
  destruct (setHead_returns_inv _ _ _ _ _ Hret)
    as (next & curr & prev & Hnext & Hcurr & Hprev & Hthis').
  cbv zeta in Hthis'.
  set (this1 := with_head _ this) in Hthis'.
  assert (head this' = head this1) as ->.
  { destruct (selectHeadState _ _ _); subst this'; [done|].
    destruct (promiseThen_frame InstallHeadState
                (getState (with_headState None this1) (stateRoot newHead)
                   regenHeadState).2
                (getState (with_headState None this1) (stateRoot newHead)
                   regenHeadState).1) as (_ & _ & _ & -> & _).
    by destruct (getState_frame (with_headState None this1)
                   (stateRoot newHead) regenHeadState)
      as (_ & _ & _ & -> & _). }
  intros Hepoch. simpl in Hepoch. simpl.
  rewrite Hepoch in Hnext, Hcurr, Hprev.
  change (Z.max (0 - 1) 0) with 0 in Hcurr.
  change (Z.max (0 - 2) 0) with 0 in Hprev.
  split; congruence.
Qed.

(** C6. When [setHead(b, s)] returns and the candidate [s] has the slot of
    [b] and hashes to the state root of [b], [getHeadState()] answers [s]
    from the object itself; the call has pushed no job and has chained no
    callback. *)
Theorem setHead_installs_candidate fuel this b s this' :
  setHead fuel this b (Some s) = Some (Ok this') ->
  st_slot s = slot b ->
  st_hashTreeRoot s = stateRoot b ->
  getHeadState this' = Some s /\
  headState this' = Some s /\
  jobQueue this' = jobQueue this /\
  thenCallbacks this' = thenCallbacks this /\
  microtasks this' = microtasks this.
Proof.
  intros Hret Hslot Hroot.
  destruct (setHead_returns_inv _ _ _ _ _ Hret)
    as (next & curr & prev & _ & _ & _ & Hthis').
  simpl in Hthis'. unfold selectHeadState in Hthis'.
  rewrite decide_True in Hthis' by done.
  rewrite decide_True in Hthis' by done.
  by subst this'.
Qed.

(** [setHead] comes back, by returning or by throwing, once the fuel
    covers the walk from the new head. *)
Lemma setHead_terminates this newHead potential :
  descending (forkChoice this) ->
  links_descend (forkChoice this) newHead ->
  0 <= SLOTS_PER_EPOCH ->
  0 <= slot newHead ->
  forall fuel,
    (Z.to_nat (slot newHead) + 2 <= fuel)%nat ->
    is_Some (setHead fuel this newHead potential).
Proof.
  intros Hfc Hb Hspe Hslot fuel Hfuel. unfold setHead, andThen.
  assert (forall E, 0 <= E ->
            is_Some (getDependantRootAtEpoch fuel (forkChoice this)
                       newHead E)) as Hres.
  { intros E HE. apply getDependantRootAtEpoch_terminates; [done..|].
    unfold computeStartSlotAtEpoch. nia. }
  assert (0 <= computeEpochAtSlot (slot newHead)) as Hepoch.
  { unfold computeEpochAtSlot.
    destruct (decide (SLOTS_PER_EPOCH = 0)) as [->|].
    - by rewrite Z.div_0_r.
    - apply Z.div_pos; lia. }
  destruct (Hres _ Hepoch) as [[next|?] ->]; [|by eexists].
  destruct (Hres (Z.max (computeEpochAtSlot (slot newHead) - 1) 0))
    as [[curr|?] ->]; [lia| |by eexists].
  destruct (Hres (Z.max (computeEpochAtSlot (slot newHead) - 2) 0))
    as [[prev|?] ->]; [lia| |by eexists].
  destruct (selectHeadState _ _ _); [by eexists|].
  destruct (getState _ _ _). by eexists.
Qed.

(** [setHead] returns as soon as its three dependant roots resolve. *)
Lemma setHead_returns fuel this newHead potential next curr prev :
  getDependantRootAtEpoch fuel (forkChoice this) newHead
    (computeEpochAtSlot (slot newHead)) = Some (Ok next) ->
  getDependantRootAtEpoch fuel (forkChoice this) newHead
    (Z.max (computeEpochAtSlot (slot newHead) - 1) 0) = Some (Ok curr) ->
  getDependantRootAtEpoch fuel (forkChoice this) newHead
    (Z.max (computeEpochAtSlot (slot newHead) - 2) 0) = Some (Ok prev) ->
  exists this', setHead fuel this newHead potential = Some (Ok this').
Proof.
  intros Hnext Hcurr Hprev. unfold setHead, andThen.
  rewrite Hnext, Hcurr, Hprev.
  destruct (selectHeadState _ _ _); [by eexists|].
  destruct (getState _ _ _). by eexists.
Qed.

(** *** The index probes *)

Lemma probe_found refs : (probe refs).1 = first_live refs.
Proof.
  unfold first_live.
  induction refs as [|[state|] refs IH]; simpl; [done..|]. exact IH.
Qed.

(** Pruning removes dead references only. *)
Lemma probe_keeps_live refs : omap deref (probe refs).2 = omap deref refs.
Proof. induction refs as [|[state|] refs IH]; simpl; [done..|]. exact IH. Qed.

Lemma probeIndex_spec this e d :
  let res := probeIndex this e d in
  res.2 = first_live (bucket this e d) /\
  (forall e' d', first_live (bucket res.1 e' d')
                 = first_live (bucket this e' d')) /\
  jobQueue res.1 = jobQueue this /\ forkChoice res.1 = forkChoice this /\
  head res.1 = head this /\ headState res.1 = headState this /\
  store res.1 = store this /\
  thenCallbacks res.1 = thenCallbacks this /\
  microtasks res.1 = microtasks this.
Proof.
  unfold probeIndex, bucket.
  destruct (dependantRootCacheNext this !! e) as [byRoot|] eqn:He;
    [|by rewrite ?He].
  destruct (byRoot !! d) as [states|] eqn:Hd; [|by rewrite ?He, ?Hd].
  pose proof (probe_found states) as Hfound.
  pose proof (probe_keeps_live states) as Hlive.
  destruct (probe states) as [found states']. simpl in *.
  split; [done|]. split; [|done].
  intros e' d'.
  destruct (decide (e = e')) as [<-|Hne].
  - rewrite lookup_insert_eq, He.
    destruct (decide (d = d')) as [<-|Hnd].
    + rewrite lookup_insert_eq, Hd. simpl. unfold first_live.
      by rewrite Hlive.
    + by rewrite lookup_insert_ne.
  - by rewrite lookup_insert_ne.
Qed.

(** *** Invariants of the reachable states *)

Lemma runCallbacks_frame (state : CachedBeaconState) this
    (cbs : list (nat * Callback)) :
  let this' := foldl (fun acc '(_, cb) => runCallback cb state acc) this cbs in
  jobQueue this' = jobQueue this /\ head this' = head this /\
  thenCallbacks this' = thenCallbacks this /\
  microtasks this' = microtasks this /\
  (cbs = [] -> headState this' = headState this).
Proof.
  revert this. induction cbs as [|[id cb] cbs IH]; intros this; [done|].
  simpl. destruct (IH (runCallback cb state this)) as (-> & -> & -> & -> & _).
  by destruct cb.
Qed.

Lemma runMicrotasks_frame this :
  let this' := runMicrotasks this in
  jobQueue this' = jobQueue this /\ head this' = head this /\
  thenCallbacks this' = thenCallbacks this /\
  microtasks this' = [] /\
  (microtasks this = [] -> headState this' = headState this).
Proof.
  unfold runMicrotasks.
  generalize (microtasks this) as tasks.
  assert (forall tasks acc,
            let this' :=
              foldl (fun acc '(cb, state) => runCallback cb state acc)
                acc tasks in
            jobQueue this' = jobQueue acc /\ head this' = head acc /\
            thenCallbacks this' = thenCallbacks acc /\
            microtasks this' = microtasks acc /\
            (tasks = [] -> headState this' = headState acc)) as Hfold.
  { induction tasks as [|[cb state] tasks IH]; intros acc; [done|].
    simpl. destruct (IH (runCallback cb state acc)) as (-> & -> & -> & -> & _).
    by destruct cb. }
  intros tasks.
  destruct (Hfold tasks (with_callbacks (thenCallbacks this) [] this))
    as (-> & -> & -> & -> & Hhs).
  repeat split; try done.
Qed.

Lemma jobResolved_frame this id state :
  let this' := jobResolved this id state in
  jobQueue this' = settleJob (jobQueue this) /\ head this' = head this /\
  microtasks this' = microtasks this /\
  (thenCallbacks this = [] ->
   thenCallbacks this' = [] /\ headState this' = headState this).
Proof.
  unfold jobResolved. cbv zeta.
  match goal with
  | |- context [foldl _ ?acc ?cbs] =>
      destruct (runCallbacks_frame state acc cbs) as (Hq & Hh & Hc & Hm & Hhs)
  end.
  rewrite Hq, Hh, Hc, Hm. do 3 (split; [done|]).
  intros Hnil. rewrite Hnil in *. split; [done|]. by rewrite Hhs.
Qed.

Lemma getAttesterShuffling_frame fuel this target this' res :
  getAttesterShuffling fuel this target = Some (this', res) ->
  jobQueue this' = jobQueue this /\ head this' = head this /\
  headState this' = headState this /\
  thenCallbacks this' = thenCallbacks this /\
  microtasks this' = microtasks this.
Proof.
  unfold getAttesterShuffling.
  destruct (getBlockHex _ _) as [targetBlock|]; [|by intros [= <- <-]].
  destruct (getDependantRootAtEpoch _ _ _ _) as [[D|?]|];
    [|by intros [= <- <-]|done].
  destruct (checkHeadShuffling _ _ _ _ _); [by intros [= <- <-]|].
  pose proof (probeIndex_spec this (epoch target) D) as H1.
  destruct (probeIndex this (epoch target) D) as [this1 found1].
  simpl in H1. destruct H1 as (_ & _ & Hq1 & _ & Hh1 & Hs1 & _ & Hc1 & Hm1).
  destruct found1; [intros [= <- <-]; done|].
  pose proof (probeIndex_spec this1 (Z.max (epoch target - 1) 0) D) as H2.
  destruct (probeIndex this1 _ D) as [this2 found2].
  simpl in H2. destruct H2 as (_ & _ & Hq2 & _ & Hh2 & Hs2 & _ & Hc2 & Hm2).
  destruct found2; [intros [= <- <-]; repeat split; congruence|].
  pose proof (probeIndex_spec this2 (epoch target + 1) D) as H3.
  destruct (probeIndex this2 _ D) as [this3 found3].
  simpl in H3. destruct H3 as (_ & _ & Hq3 & _ & Hh3 & Hs3 & _ & Hc3 & Hm3).
  destruct found3; [intros [= <- <-]; repeat split; congruence|].
  destruct (store this3 _ _); intros [= <- <-]; repeat split; congruence.
Qed.

Lemma step_queue_bounded this this' :
  step this this' -> queue_bounded this -> queue_bounded this'.
Proof.
  intros Hstep Hb.
  destruct Hstep as [fuel this newHead potential this' Hret
                    |this r c|this block c
                    |fuel this target this' res Hret
                    |this|this job state _|this job _|this|this
                    |this fc sc cpc m idx db].
  - destruct (setHead_returns_inv _ _ _ _ _ Hret)
      as (next & curr & prev & _ & _ & _ & Hthis').
    simpl in Hthis'.
    destruct (selectHeadState _ _ _); subst this'; [done|].
    eapply queue_bounded_ext; [apply promiseThen_frame|].
    by apply getState_bounded.
  - by apply getState_bounded.
  - by apply getPreState_bounded.
  - eapply queue_bounded_ext; [|done].
    by eapply getAttesterShuffling_frame.
  - destruct Hb as [HM Hlen]. destruct (runJob_length (jobQueue this)).
    split; simpl; congruence.
  - destruct Hb as [HM Hlen].
    destruct (jobResolved_frame this (job_id job) state) as (Hq & _).
    destruct (settleJob_length (jobQueue this)).
    unfold queue_bounded. rewrite Hq. split; [congruence|lia].
  - destruct Hb as [HM Hlen]. destruct (settleJob_length (jobQueue this)).
    unfold queue_bounded, jobRejected.
    cbn [jobQueue with_callbacks with_jobQueue]. split; [congruence|lia].
  - eapply queue_bounded_ext; [apply runMicrotasks_frame|done].
  - destruct Hb as [HM Hlen]. split; simpl; [done|].
    unfold queueLength. simpl. lia.
  - done.
Qed.

Lemma step_head_settled this this' :
  step this this' -> head_settled this -> head_settled this'.
Proof.
  intros Hstep Hs.
  destruct Hstep as [fuel this newHead potential this' Hret
                    |this r c|this block c
                    |fuel this target this' res Hret
                    |this|this job state _|this job _|this|this
                    |this fc sc cpc m idx db].
  - left. by eapply setHead_head_coherent.
  - destruct (getState_frame this r c) as (_ & _ & _ & Hh & Hhs & _ & _ & Hc & Hm).
    unfold head_settled. by rewrite Hh, Hhs, Hc, Hm.
  - destruct (getPreState_frame this block c) as (Hh & Hhs & Hc & Hm).
    unfold head_settled. by rewrite Hh, Hhs, Hc, Hm.
  - destruct (getAttesterShuffling_frame _ _ _ _ _ Hret)
      as (_ & Hh & Hhs & Hc & Hm).
    unfold head_settled. by rewrite Hh, Hhs, Hc, Hm.
  - done.
  - destruct (jobResolved_frame this (job_id job) state)
      as (_ & Hh & Hm & Hnil).
    destruct Hs as [Hco|(Hnone & Hcbs & Htasks)].
    + left. by rewrite Hh.
    + right. destruct (Hnil Hcbs) as [Hc Hhs].
      by rewrite Hc, Hm, Hhs.
  - destruct Hs as [Hco|(Hnone & Hcbs & Htasks)]; [by left|].
    right. simpl. by rewrite Hcbs.
  - destruct (runMicrotasks_frame this) as (_ & Hh & Hc & Hm & Hhs).
    destruct Hs as [Hco|(Hnone & Hcbs & Htasks)].
    + left. by rewrite Hh.
    + right. by rewrite Hc, Hm, Hhs.
  - destruct Hs as [Hco|(Hnone & Hcbs & Htasks)]; [by left|by right].
  - done.
Qed.

Lemma reachable_invariants this :
  reachable this -> queue_bounded this /\ head_settled this.
Proof.
  intros (init & (Hq & Hhs & Hc & Hm) & Hrun).
  revert this Hrun. apply rtc_ind_r.
  - split; [|by right].
    unfold queue_bounded. rewrite Hq. unfold queueLength. simpl.
    unfold REGEN_QUEUE_MAX_LEN. lia.
  - intros mid this' _ Hstep [Hb Hs].
    split; [by eapply step_queue_bounded|by eapply step_head_settled].
Qed.

(** C8. In every reachable state of the regenerator the jobs in flight and
    pending number at most [REGEN_QUEUE_MAX_LEN = 256], and a submission
    made at that number is refused at once with the queue's error: the
    queue and the regenerator stay as they were. *)
Theorem regen_queue_bound this :
  reachable this ->
  REGEN_QUEUE_MAX_LEN = 256%nat /\
  (queueLength (jobQueue this) <= REGEN_QUEUE_MAX_LEN)%nat /\
  forall req,
    queueLength (jobQueue this) = REGEN_QUEUE_MAX_LEN ->
    push (jobQueue this) req = Err QUEUE_MAX_LENGTH /\
    enqueue this req = (this, Rejected QUEUE_MAX_LENGTH).
Proof.
  intros Hreach.
  destruct (reachable_invariants _ Hreach) as [[HM Hlen] _].
  split; [done|]. split; [done|].
  intros req Hfull. split.
  - unfold push. rewrite decide_True by lia. done.
  - apply enqueue_refuses. lia.
Qed.

(** The [if]/[else if] chain over the head agrees with the three checks of
    the specification once the head comes from [setHead]. *)
Lemma checkHeadShuffling_spec this E D :
  head_settled this ->
  checkHeadShuffling this E (Z.max (E - 1) 0) (E + 1) D
  = head_shuffling_spec this E (Z.max (E - 1) 0) (E + 1) D.
Proof.
  intros Hs. unfold checkHeadShuffling, head_shuffling_spec.
  destruct (headState this) as [hs|] eqn:Hhs; [|done].
  destruct Hs as [Hco|(Hnone & _)]; [|congruence].
  unfold head_coherent in Hco.
  assert (E = Z.max (E - 1) 0 -> E = 0) as Hcn by lia.
  assert (Z.max (E - 1) 0 = E + 1 -> Z.max (E - 1) 0 = 0) as Hnp by lia.
  assert (E <> E + 1) as Hcp by lia.
  generalize dependent (Z.max (E - 1) 0). intros En Hcn Hnp.
  generalize dependent (E + 1). intros Ep Hnp Hcp.
  assert (head_epoch (head this) <> 0
          \/ (dependantRootCurr (head this) = dependantRootNext (head this)
              /\ dependantRootPrev (head this)
                 = dependantRootNext (head this))) as Hroots.
  { destruct (decide (head_epoch (head this) = 0)); [right|left]; auto. }
  clear Hco.
  repeat case_decide; try done; exfalso;
    intuition (try congruence; try lia).
Qed.

(** C4. In a reachable state, [getAttesterShuffling(targetCheckpoint)]
    answers as the specification words it: with [E] the target epoch,
    [E_next = max(E-1, 0)], [E_prev = E+1] and [D] the dependant root of
    the target block at [E_next], it takes the head state's current, next
    or previous shuffling when the head's epoch and matching dependant
    root are [(E, D)], [(E_next, D)] or [(E_prev, D)]; else the first live
    state of the index buckets at [E], [E_next], [E_prev] under [D], in
    that order, for its current, next or previous shuffling; else the next
    shuffling of the checkpoint state read at [(E_next, D)]. *)
Theorem getAttesterShuffling_follows_spec fuel this target :
  reachable this ->
  snd <$> getAttesterShuffling fuel this target
  = attester_shuffling_spec fuel this target.
Proof.
  intros Hreach.
  destruct (reachable_invariants _ Hreach) as [_ Hs].
  unfold getAttesterShuffling, attester_shuffling_spec, andThen.
  destruct (getBlockHex _ _) as [targetBlock|]; [|done].
  destruct (getDependantRootAtEpoch _ _ _ _) as [[D|?]|]; [|done..].
  rewrite checkHeadShuffling_spec by done.
  destruct (head_shuffling_spec _ _ _ _ _); [done|].
  pose proof (probeIndex_spec this (epoch target) D) as H1.
  destruct (probeIndex this (epoch target) D) as [this1 found1].
  simpl in H1. destruct H1 as (-> & Hlive1 & _ & _ & _ & _ & Hst1 & _).
  destruct (first_live (bucket this (epoch target) D)); [done|].
  pose proof (probeIndex_spec this1 (Z.max (epoch target - 1) 0) D) as H2.
  destruct (probeIndex this1 _ D) as [this2 found2].
  simpl in H2. destruct H2 as (-> & Hlive2 & _ & _ & _ & _ & Hst2 & _).
  rewrite Hlive1.
  destruct (first_live (bucket this (Z.max (epoch target - 1) 0) D));
    [done|].
  pose proof (probeIndex_spec this2 (epoch target + 1) D) as H3.
  destruct (probeIndex this2 _ D) as [this3 found3].
  simpl in H3. destruct H3 as (-> & Hlive3 & _ & _ & _ & _ & Hst3 & _).
  rewrite Hlive2, Hlive1.
  destruct (first_live (bucket this (epoch target + 1) D)); [done|].
  rewrite Hst3, Hst2, Hst1.
  by destruct (store this _ _).
Qed.

(** The lookup comes back once the fuel covers the walk from the target
    block. *)
Lemma getAttesterShuffling_terminates this target :
  descending (forkChoice this) ->
  0 <= SLOTS_PER_EPOCH ->
  (forall b, getBlockHex (forkChoice this) (root target) = Some b ->
             0 <= slot b) ->
  forall fuel,
    (forall b, getBlockHex (forkChoice this) (root target) = Some b ->
               (Z.to_nat (slot b) + 2 <= fuel)%nat) ->
    is_Some (getAttesterShuffling fuel this target).
Proof.
  intros Hfc Hspe Hslot fuel Hfuel. unfold getAttesterShuffling.
  destruct (getBlockHex (forkChoice this) (root target)) as [b|] eqn:Hb;
    [|by eexists].
  destruct (getDependantRootAtEpoch_terminates (forkChoice this) b
              (Z.max (epoch target - 1) 0) Hfc (Hfc _ _ Hb) fuel)
    as [[D|e] ->]; [|clear Hfuel|by eexists].
  { specialize (Hfuel b eq_refl). specialize (Hslot b eq_refl).
    unfold computeStartSlotAtEpoch. nia. }
  destruct (checkHeadShuffling _ _ _ _ _); [by eexists|].
  destruct (probeIndex this _ _) as [this1 [s1|]]; [by eexists|].
  destruct (probeIndex this1 _ _) as [this2 [s2|]]; [by eexists|].
  destruct (probeIndex this2 _ _) as [this3 [s3|]]; [by eexists|].
  destruct (store this3 _ _); by eexists.
Qed.

End WithPreset.

(** ** Worked scenarios, on epochs of 32 slots *)

Local Open Scope string_scope.

Definition mkBlock (s : Z) (r p sr t : string) : IProtoBlock :=
  {| slot := s; blockRoot := r; parentRoot := p; stateRoot := sr;
     targetRoot := t |}.

(** The chain of the specification's dependant-root scenario:
    genesis at slot 0, A at slot 5, B at slot 40 with target A, C at
    slot 45 with target B. *)
Definition blockG : IProtoBlock := mkBlock 0 "0xG" "0x00" "0xSG" "0xG".
Definition blockA : IProtoBlock := mkBlock 5 "0xA" "0xG" "0xSA" "0xG".
Definition blockB : IProtoBlock := mkBlock 40 "0xB" "0xA" "0xSB" "0xA".
Definition blockC : IProtoBlock := mkBlock 45 "0xC" "0xB" "0xSC" "0xB".

Definition chainGC : IForkChoice :=
  {| fc_blocks :=
       <["0xG" := blockG]> (<["0xA" := blockA]> (<["0xB" := blockB]>
         (<["0xC" := blockC]> ∅)));
     fc_finalized := {| cp_epoch := 0; cp_rootHex := "0xG" |} |}.

Definition noCheckpointStates : CheckpointStateCache :=
  {| getLatest := fun _ _ => None |}.

Definition mkState (s : Z) (r : string) (cur nxt prv : list nat)
  : CachedBeaconState :=
  {| st_slot := s; st_hashTreeRoot := r; proposers := [];
     currentShuffling := cur; nextShuffling := nxt;
     previousShuffling := prv |}.

Definition stateB : CachedBeaconState := mkState 40 "0xSB" [1%nat] [2%nat] [3%nat].
Definition stateC : CachedBeaconState := mkState 45 "0xSC" [4%nat] [5%nat] [6%nat].

Definition genesisSummary : HeadSummary :=
  {| head_stateRoot := "0xSG"; head_blockRoot := "0xG"; head_slot := 0;
     head_epoch := 0; head_targetRoot := "0xG";
     dependantRootNext := "0xG"; dependantRootCurr := "0xG";
     dependantRootPrev := "0xG" |}.

(** A regenerator as the constructor leaves it, over the given
    collaborators. *)
Definition newRegen (fc : IForkChoice) (sc : gmap string CachedBeaconState)
    (cpc : CheckpointStateCache) (h : HeadSummary) : QueuedStateRegenerator :=
  {| jobQueue := newJobItemQueue REGEN_QUEUE_MAX_LEN; forkChoice := fc;
     stateCache := sc; checkpointStateCache := cpc; metrics := None;
     head := h; headState := None; dependantRootCacheNext := ∅;
     store := fun _ _ => None; thenCallbacks := []; microtasks := [] |}.

Definition coldRegen : QueuedStateRegenerator :=
  newRegen chainGC ∅ noCheckpointStates genesisSummary.

(** The state a returning call leaves, for calls known to return. *)
Definition returned (r : option (Result RegenError QueuedStateRegenerator))
    (otherwise : QueuedStateRegenerator) : QueuedStateRegenerator :=
  match r with
  | Some (Ok this) => this
  | _ => otherwise
  end.

(** [setHead(B)] with no state at hand, then [setHead(C)] likewise, then
    the worker runs the first job and it resolves with the state of B. *)
Definition headAtB : QueuedStateRegenerator :=
  returned (setHead 32 3 coldRegen blockB None) coldRegen.
Definition headAtC : QueuedStateRegenerator :=
  returned (setHead 32 3 headAtB blockC None) coldRegen.
Definition lateCompletion : QueuedStateRegenerator :=
  jobResolved (with_jobQueue (runJob (jobQueue headAtC)) headAtC) 0 stateB.

Example dependant_root_scenario :
  getDependantRootAtEpoch 32 3 chainGC blockC 1 = Some (Ok "0xA").
Proof. vm_compute. reflexivity. Qed.

Lemma getDependantRootAtEpoch_follows_walk_witness :
  dependant_root_walk chainGC (computeStartSlotAtEpoch 32 1) blockC "0xA".
Proof.
  apply (getDependantRootAtEpoch_follows_walk 32 chainGC blockC 1 "0xA").
  - lia.
  - exists 3%nat. vm_compute. reflexivity.
Defined.

(** C2. The run of [lateCompletion] is a run of the object, and at its end
    the state of B is installed as head state although the head is C, whose
    state root it does not have: the callback of [setHead] installs what
    its promise resolves with, whatever the head has become. *)
Theorem setHead_stale_completion_installed :
  reachable 32 lateCompletion /\
  headState headAtB = None /\
  headState headAtC = None /\
  head_stateRoot (head lateCompletion) = stateRoot blockC /\
  headState lateCompletion = Some stateB /\
  st_hashTreeRoot stateB <> head_stateRoot (head lateCompletion) /\
  getHeadState lateCompletion = Some stateB.
Proof.
  split.
  { exists coldRegen. split; [by repeat split|].
    eapply (rtc_l _ _ headAtB).
    { by eapply (step_setHead 32 3 coldRegen blockB None). }
    eapply (rtc_l _ _ headAtC).
    { by eapply (step_setHead 32 3 headAtB blockC None). }
    eapply rtc_l; [apply step_runJob|].
    eapply rtc_l; [|apply rtc_refl].
    by eapply (step_jobResolved 32 _ {| job_id := 0;
                 job_request := ReqGetState "0xSB" regenHeadState |} stateB). }
  vm_compute. repeat split; done.
Qed.

(** The pre-state scenarios: a parent at slot 32 whose state is cached
    under "0xAA", and a parent at slot 31 with a checkpoint state for
    epoch 1. *)
Definition parentsFc : IForkChoice :=
  {| fc_blocks :=
       <["0xP1" := mkBlock 32 "0xP1" "0xP" "0xAA" "0xP1"]>
         (<["0xP" := mkBlock 31 "0xP" "0xG" "0xSP" "0xG"]> ∅);
     fc_finalized := {| cp_epoch := 0; cp_rootHex := "0xG" |} |}.

Definition stateAA : CachedBeaconState := mkState 32 "0xAA" [1%nat] [] [].
Definition stateCP : CachedBeaconState := mkState 32 "0xCP" [2%nat] [] [].

Definition checkpointAtP : CheckpointStateCache :=
  {| getLatest := fun r e =>
       match e with
       | UpTo 1 => if decide (r = "0xP") then Some stateCP else None
       | _ => None
       end |}.

Definition warmRegen : QueuedStateRegenerator :=
  newRegen parentsFc {["0xAA" := stateAA]} checkpointAtP genesisSummary.

Definition block35 : BeaconBlock :=
  {| block_slot := 35; block_parentRoot := "0xP1" |}.
Definition block32 : BeaconBlock :=
  {| block_slot := 32; block_parentRoot := "0xP" |}.
Definition block64 : BeaconBlock :=
  {| block_slot := 64; block_parentRoot := "0xP1" |}.
Definition blockOrphan : BeaconBlock :=
  {| block_slot := 35; block_parentRoot := "0xZZ" |}.

Lemma getPreState_cases_witness :
  (getPreState 32 warmRegen blockOrphan (caller "x")).2
    = Rejected (BLOCK_NOT_IN_FORKCHOICE "0xZZ") /\
  ((getPreState 32 warmRegen block32 (caller "x")).2 = Resolved stateCP /\
   jobQueue (getPreState 32 warmRegen block32 (caller "x")).1
     = jobQueue warmRegen) /\
  ((getPreState 32 warmRegen block35 (caller "x")).2 = Resolved stateAA /\
   jobQueue (getPreState 32 warmRegen block35 (caller "x")).1
     = jobQueue warmRegen) /\
  (getPreState 32 warmRegen block64 (caller "x")).2 = Pending 0.
Proof.
  split; [|split; [|split]].
  - apply (proj1 (getPreState_cases 32 warmRegen blockOrphan (caller "x"))).
    reflexivity.
  - apply (proj1 (proj2 (getPreState_cases 32 warmRegen block32 (caller "x"))
                   (mkBlock 31 "0xP" "0xG" "0xSP" "0xG") eq_refl)).
    + vm_compute. reflexivity.
    + reflexivity.
  - apply (proj1 (proj2 (proj2 (getPreState_cases 32 warmRegen block35
                                  (caller "x"))
                   (mkBlock 32 "0xP1" "0xP" "0xAA" "0xP1") eq_refl))).
    + reflexivity.
    + reflexivity.
  - rewrite (proj2 (proj2 (proj2 (getPreState_cases 32 warmRegen block64
                                    (caller "x"))
                   (mkBlock 32 "0xP1" "0xP" "0xAA" "0xP1") eq_refl))).
    + reflexivity.
    + intros [_ [s Hs]]. vm_compute in Hs. discriminate.
    + intros [He _]. vm_compute in He. discriminate.
Defined.

Lemma getState_cache_hit_witness :
  (getState warmRegen "0xAA" (caller "x")).2 = Resolved stateAA /\
  jobQueue (getState warmRegen "0xAA" (caller "x")).1 = jobQueue warmRegen.
Proof.
  apply (getState_cache_hit warmRegen "0xAA" (caller "x") stateAA).
  reflexivity.
Defined.

(** [setHead(B, stateB)]: the candidate matches the new head. *)
Definition headAtBWithState : QueuedStateRegenerator :=
  returned (setHead 32 3 coldRegen blockB (Some stateB)) coldRegen.

Lemma setHead_installs_candidate_witness :
  getHeadState headAtBWithState = Some stateB /\
  headState headAtBWithState = Some stateB /\
  jobQueue headAtBWithState = jobQueue coldRegen /\
  thenCallbacks headAtBWithState = thenCallbacks coldRegen /\
  microtasks headAtBWithState = microtasks coldRegen.
Proof.
  apply (setHead_installs_candidate 32 3 coldRegen blockB stateB
           headAtBWithState); reflexivity.
Defined.

(** A regenerator after [n] calls of [getState] that miss the cache. *)
Definition afterMisses (n : nat) : QueuedStateRegenerator :=
  Nat.iter n (fun this => (getState this "0xS?" (caller "x")).1) coldRegen.

Lemma afterMisses_reachable n : reachable 32 (afterMisses n).
Proof.
  induction n as [|n [init [Hinit Hrun]]].
  - exists coldRegen. split; [by repeat split|apply rtc_refl].
  - exists init. split; [done|].
    eapply rtc_r; [exact Hrun|]. apply step_getState.
Defined.

Lemma regen_queue_bound_witness :
  (queueLength (jobQueue (afterMisses 256)) <= 256)%nat /\
  enqueue (afterMisses 256) (ReqGetState "0xS?" (caller "x"))
  = (afterMisses 256, Rejected QUEUE_MAX_LENGTH).
Proof.
  destruct (regen_queue_bound 32 (afterMisses 256) (afterMisses_reachable 256))
    as (_ & Hlen & Hfull).
  split; [exact Hlen|].
  apply Hfull. vm_compute. reflexivity.
Defined.

(** The attester scenario: the head H opens epoch 10 on a chain whose
    epochs 8 and 9 open with E8 and E9. *)
Definition blockL7 : IProtoBlock := mkBlock 255 "0xL7" "0xK7" "0xSL7" "0xT7".
Definition blockE8 : IProtoBlock := mkBlock 256 "0xE8" "0xL7" "0xSE8" "0xE8".
Definition blockE9 : IProtoBlock := mkBlock 288 "0xE9" "0xE8" "0xSE9" "0xE9".
Definition blockH : IProtoBlock := mkBlock 320 "0xH" "0xE9" "0xSH" "0xH".

Definition chainH : IForkChoice :=
  {| fc_blocks :=
       <["0xL7" := blockL7]> (<["0xE8" := blockE8]> (<["0xE9" := blockE9]>
         (<["0xH" := blockH]> ∅)));
     fc_finalized := {| cp_epoch := 8; cp_rootHex := "0xE8" |} |}.

Definition stateH : CachedBeaconState :=
  mkState 320 "0xSH" [7%nat] [8%nat] [9%nat].

Definition headAtH : QueuedStateRegenerator :=
  returned (setHead 32 4
              (newRegen chainH ∅ noCheckpointStates genesisSummary)
              blockH (Some stateH)) coldRegen.

Lemma getAttesterShuffling_follows_spec_witness :
  snd <$> getAttesterShuffling 32 4 headAtH {| epoch := 10; root := "0xH" |}
  = attester_shuffling_spec 32 4 headAtH {| epoch := 10; root := "0xH" |}
  /\ attester_shuffling_spec 32 4 headAtH {| epoch := 10; root := "0xH" |}
     = Some (Ok [7%nat]).
Proof.
  split; [|vm_compute; reflexivity].
  apply (getAttesterShuffling_follows_spec 32 4 headAtH).
  exists (newRegen chainH ∅ noCheckpointStates genesisSummary).
  split; [by repeat split|].
  eapply rtc_l; [|apply rtc_refl].
  by eapply (step_setHead 32 4 _ blockH (Some stateH)).
Defined.

(** Why the head must come from [setHead]: on a hand-made object whose
    head at epoch 0 carries two different dependant roots, the chain of
    the source stops at the first epoch match while the three checks of
    the specification go on to the second. No run of the object reaches
    such a state. *)
Definition incoherentRegen : QueuedStateRegenerator :=
  with_headState (Some stateB)
    (with_head
       {| head_stateRoot := "0xSG"; head_blockRoot := "0xG"; head_slot := 0;
          head_epoch := 0; head_targetRoot := "0xG";
          dependantRootNext := "0xG"; dependantRootCurr := "0xQ";
          dependantRootPrev := "0xG" |} coldRegen).

Remark head_checks_differ_off_setHead :
  checkHeadShuffling incoherentRegen 0 0 1 "0xG" = None /\
  head_shuffling_spec incoherentRegen 0 0 1 "0xG" = Some [2%nat] /\
  ~ head_settled incoherentRegen.
Proof.
  split; [by vm_compute|]. split; [by vm_compute|].
  intros [Hco|(Hnone & _)]; [|discriminate].
  specialize (Hco eq_refl) as [Hcurr _]. discriminate.
Qed.

End Regen.

(** * Capella block processing: credential change and withdrawals *)

Module Capella.

Abbreviation byte := Byte.byte (only parsing).

#[local] Instance byte_eq_dec : EqDecision Byte.byte := Byte.byte_eq_dec.

(** ** Data model *)

(** A validator of the state: the fields the two functions read. *)
Record Validator : Type := {
  effectiveBalance : Z;
  withdrawalCredentials : list byte;
  withdrawableEpoch : Z;
}.

(** [CachedBeaconStateCapella]: the fields the two functions read.
    [epochCtx_epoch] is [state.epochCtx.epoch]. *)
Record CachedBeaconStateCapella : Type := {
  epochCtx_epoch : Z;
  nextWithdrawalIndex : Z;
  nextWithdrawalValidatorIndex : nat;
  validators : list Validator;
  balances : list Z;
}.

(** [capella.Withdrawal] *)
Record Withdrawal : Type := {
  w_index : Z;
  w_validatorIndex : nat;
  w_address : list byte;
  w_amount : Z;
}.

(** [capella.BLSToExecutionChange] and its signed envelope. *)
Record BLSToExecutionChange : Type := {
  validatorIndex : nat;
  fromBlsPubkey : list byte;
  toExecutionAddress : list byte;
}.

Record SignedBLSToExecutionChange : Type := {
  message : BLSToExecutionChange;
  signature : list byte;
}.

Inductive CapellaError : Type :=
| InvalidValidatorIndex (expected actual : nat)
| InvalidWithdrawalCredentialsPrefix
| InvalidWithdrawalCredentials
| RangeError
    (* [TypedArray.prototype.set] past the end of its target *)
| IndexOutOfRange (i : nat)
    (* a list view read past its length *).

(** [a.slice(start, end)] of a byte array. *)
Definition slice (start stop : nat) (a : list byte) : list byte :=
  take (stop - start) (drop start a).

(** [byteArrayEquals]: same length and same bytes. *)
Definition byteArrayEquals (a b : list byte) : bool := bool_decide (a = b).

(** [target.set(source, offset)]: the bytes of [source] written over
    [target] from [offset] on; a [RangeError] when they do not fit. *)
Definition set (target source : list byte) (offset : nat)
  : option (list byte) :=
  if decide (offset + length source <= length target) then
    Some (take offset target ++ source
            ++ drop (offset + length source) target)
  else None.

Definition with_withdrawalCredentials (c : list byte) (v : Validator)
  : Validator :=
  {| effectiveBalance := effectiveBalance v; withdrawalCredentials := c;
     withdrawableEpoch := withdrawableEpoch v |}.

(** The state with the credentials of validator [i] replaced: what the
    writes through the validator's view amount to. *)
Definition with_credentials (i : nat) (c : list byte)
    (state : CachedBeaconStateCapella) : CachedBeaconStateCapella :=
  {| epochCtx_epoch := epochCtx_epoch state;
     nextWithdrawalIndex := nextWithdrawalIndex state;
     nextWithdrawalValidatorIndex := nextWithdrawalValidatorIndex state;
     validators := alter (with_withdrawalCredentials c) i (validators state);
     balances := balances state |}.

(** The comment in [getExpectedWithdrawals] gives its value. *)
Definition WITHDRAWAL_PREFIX_BYTES : nat := 1.

Section WithParams.

(** Constants of [@lodestar/params] and the SHA-256 [digest] of
    [@chainsafe/as-sha256]. *)
Variable MAX_EFFECTIVE_BALANCE : Z.
Variable MAX_WITHDRAWALS_PER_PAYLOAD : nat.
Variable ETH1_ADDRESS_WITHDRAWAL_PREFIX : list byte.
Variable BLS_WITHDRAWAL_PREFIX : list byte.
Variable digest : list byte -> list byte.

(** ** [processBlsToExecutionChange] *)

(** The function mutates the state it is given and may throw: the result
    is the state it leaves and how it ended. *)
Definition processBlsToExecutionChange (state : CachedBeaconStateCapella)
    (signedBlsToExecutionChange : SignedBLSToExecutionChange)
  : CachedBeaconStateCapella * Result CapellaError unit :=
  let addressChange := message signedBlsToExecutionChange in
  if decide (length (validators state) <= validatorIndex addressChange) then
    (state, Err (InvalidValidatorIndex (length (validators state))
                   (validatorIndex addressChange)))
  else
    match validators state !! validatorIndex addressChange with
    | None => (state, Err (IndexOutOfRange (validatorIndex addressChange)))
    | Some validator =>
        let credentialPrefix :=
          slice 0 WITHDRAWAL_PREFIX_BYTES (withdrawalCredentials validator) in
        if negb (byteArrayEquals credentialPrefix BLS_WITHDRAWAL_PREFIX) then
          (state, Err InvalidWithdrawalCredentialsPrefix)
        else if negb (byteArrayEquals
                        (slice WITHDRAWAL_PREFIX_BYTES 32
                           (withdrawalCredentials validator))
                        (slice WITHDRAWAL_PREFIX_BYTES 32
                           (digest (fromBlsPubkey addressChange)))) then
          (state, Err InvalidWithdrawalCredentials)
        else
          let i := validatorIndex addressChange in
          match set (withdrawalCredentials validator)
                  ETH1_ADDRESS_WITHDRAWAL_PREFIX 0 with
          | None => (state, Err RangeError)
          | Some c1 =>
              match set c1 (replicate 11 Byte.x00)
                      WITHDRAWAL_PREFIX_BYTES with
              | None => (with_credentials i c1 state, Err RangeError)
              | Some c2 =>
                  match set c2 (toExecutionAddress addressChange) 12 with
                  | None => (with_credentials i c2 state, Err RangeError)
                  | Some c3 => (with_credentials i c3 state, Ok tt)
                  end
              end
          end
    end.

(** The three grounds on which a change is refused. *)
Definition refused (state : CachedBeaconStateCapella)
    (change : BLSToExecutionChange) : Prop :=
  length (validators state) <= validatorIndex change \/
  exists validator,
    validators state !! validatorIndex change = Some validator /\
    (slice 0 1 (withdrawalCredentials validator) <> BLS_WITHDRAWAL_PREFIX \/
     slice 1 32 (withdrawalCredentials validator)
     <> slice 1 32 (digest (fromBlsPubkey change))).

(** ** [getExpectedWithdrawals] *)

(** The [for] loop, by the number of iterations it may still make. The
    views are taken to throw when read past their length. *)
Fixpoint withdrawalsLoop (iterations : nat) (vals : list Validator)
    (bals : list Z) (currentEpoch : Z) (withdrawalIndex : Z)
    (validatorIdx : nat) (withdrawals : list Withdrawal)
  : Result CapellaError (list Withdrawal) :=
  match iterations with
  | O => Ok withdrawals
  | S iterations' =>
      match vals !! validatorIdx, bals !! validatorIdx with
      | Some validator, Some balance =>
          let '(withdrawalIndex', withdrawals') :=
            if decide ((((0 < balance)%Z
                         /\ (withdrawableEpoch validator <= currentEpoch)%Z)
                        \/ (effectiveBalance validator = MAX_EFFECTIVE_BALANCE
                            /\ (MAX_EFFECTIVE_BALANCE < balance)%Z))
                       /\ withdrawalCredentials validator !! 0
                          = ETH1_ADDRESS_WITHDRAWAL_PREFIX !! 0)
            then
              let amount :=
                if decide (withdrawableEpoch validator <= currentEpoch)%Z
                then balance else (balance - MAX_EFFECTIVE_BALANCE)%Z in
              let address := drop 12 (withdrawalCredentials validator) in
              ((withdrawalIndex + 1)%Z,
               withdrawals ++ [{| w_index := withdrawalIndex;
                                  w_validatorIndex := validatorIdx;
                                  w_address := address;
                                  w_amount := amount |}])
            else (withdrawalIndex, withdrawals) in
          (* Break if we have enough to pack the block *)
          if decide (MAX_WITHDRAWALS_PER_PAYLOAD <= length withdrawals') then
            Ok withdrawals'
          else
            (* Get next validator in turn *)
            withdrawalsLoop iterations' vals bals currentEpoch
              withdrawalIndex' ((validatorIdx + 1) `mod` length vals)
              withdrawals'
      | _, _ => Err (IndexOutOfRange validatorIdx)
      end
  end.

Definition getExpectedWithdrawals (state : CachedBeaconStateCapella)
  : Result CapellaError (list Withdrawal) :=
  let currentEpoch := (epochCtx_epoch state + 1)%Z in
  withdrawalsLoop (length (validators state)) (validators state)
    (balances state) currentEpoch (nextWithdrawalIndex state)
    (nextWithdrawalValidatorIndex state) [].

(** What holds of every Capella state: one balance per validator, and a
    sweep position that is a validator. *)
Definition well_formed (state : CachedBeaconStateCapella) : Prop :=
  length (balances state) = length (validators state) /\
  (validators state <> [] ->
   nextWithdrawalValidatorIndex state < length (validators state)).

(** ** Facts about [processBlsToExecutionChange] *)

(** The three writes, on credentials of 32 bytes, a prefix of one byte and
    an address of 20 bytes. *)
Lemma set_prefix (creds prefix : list byte) :
  length creds = 32 -> length prefix = 1 ->
  set creds prefix 0 = Some (prefix ++ drop 1 creds).
Proof.
  intros Hc Hp. unfold set. rewrite Hp, Hc.
  rewrite decide_True by lia. by rewrite take_0.
Qed.

Lemma set_zeros (creds prefix : list byte) :
  length creds = 32 -> length prefix = 1 ->
  set (prefix ++ drop 1 creds) (replicate 11 Byte.x00) 1
  = Some (prefix ++ replicate 11 Byte.x00 ++ drop 12 creds).
Proof.
  intros Hc Hp. unfold set.
  rewrite length_app, length_drop, length_replicate, Hp, Hc.
  rewrite decide_True by lia.
  rewrite take_app_length' by done.
  rewrite drop_app_ge by lia. rewrite Hp, drop_drop.
  done.
Qed.

Lemma set_address (creds prefix addr : list byte) :
  length creds = 32 -> length prefix = 1 -> length addr = 20 ->
  set (prefix ++ replicate 11 Byte.x00 ++ drop 12 creds) addr 12
  = Some (prefix ++ replicate 11 Byte.x00 ++ addr).
Proof.
  intros Hc Hp Ha. unfold set.
  rewrite !length_app, length_drop, length_replicate, Hp, Hc, Ha.
  rewrite decide_True by lia.
  rewrite (assoc_L (++) prefix).
  rewrite take_app_length'
    by (rewrite length_app, length_replicate; lia).
  rewrite drop_ge
    by (rewrite !length_app, length_drop, length_replicate; lia).
  by rewrite app_nil_r, <- (assoc_L (++)).
Qed.

Lemma with_credentials_lookup i c state v :
  validators state !! i = Some v ->
  validators (with_credentials i c state) !! i
  = Some (with_withdrawalCredentials c v) /\
  (forall j, j <> i ->
     validators (with_credentials i c state) !! j = validators state !! j) /\
  balances (with_credentials i c state) = balances state.
Proof.
  intros Hv. simpl. rewrite list_lookup_alter_eq, Hv.
  repeat split. intros j Hj. by rewrite list_lookup_alter_ne.
Qed.

(** C10. On a state whose credentials are 32 bytes, with a prefix constant
    of one byte and an execution address of 20 bytes,
    [processBlsToExecutionChange] throws exactly when the validator index
    is not below the number of validators, or the first byte of the
    validator's credentials is not [BLS_WITHDRAWAL_PREFIX], or bytes 1..31
    of the credentials differ from bytes 1..31 of the digest of
    [fromBlsPubkey]; when it throws the state is as before; otherwise the
    validator's credentials become [ETH1_ADDRESS_WITHDRAWAL_PREFIX], eleven
    zero bytes, then [toExecutionAddress], and nothing else changes. *)
Theorem processBlsToExecutionChange_spec state signed :
  length ETH1_ADDRESS_WITHDRAWAL_PREFIX = 1 ->
  (forall v, validators state !! validatorIndex (message signed) = Some v ->
             length (withdrawalCredentials v) = 32) ->
  length (toExecutionAddress (message signed)) = 20 ->
  ((exists e, (processBlsToExecutionChange state signed).2 = Err e)
   <-> refused state (message signed)) /\
  (refused state (message signed) ->
   (processBlsToExecutionChange state signed).1 = state) /\
  (~ refused state (message signed) ->
   (processBlsToExecutionChange state signed).2 = Ok tt /\
   (processBlsToExecutionChange state signed).1
   = with_credentials (validatorIndex (message signed))
       (ETH1_ADDRESS_WITHDRAWAL_PREFIX ++ replicate 11 Byte.x00
          ++ toExecutionAddress (message signed)) state).
Proof.
  intros Hprefix Hcreds Haddr.
  unfold processBlsToExecutionChange, refused, byteArrayEquals,
    WITHDRAWAL_PREFIX_BYTES.
  destruct (decide (length (validators state)
                    <= validatorIndex (message signed))) as [Hout|Hin].
  { simpl. split; [|split]; [split; eauto|done|]. intros []. by left. }
  destruct (validators state !! validatorIndex (message signed))
    as [v|] eqn:Hv.
  2: { apply lookup_ge_None in Hv. lia. }
  specialize (Hcreds v eq_refl).
  destruct (decide (slice 0 1 (withdrawalCredentials v)
                    = BLS_WITHDRAWAL_PREFIX)) as [Hbls|Hbls].
  2: { rewrite bool_decide_eq_false_2 by done. simpl.
       split; [|split]; [split; [intros _; right|]; eauto|done|].
       intros []. right. eauto. }
  rewrite bool_decide_eq_true_2 by done. simpl.
  destruct (decide (slice 1 32 (withdrawalCredentials v)
                    = slice 1 32 (digest (fromBlsPubkey (message signed)))))
    as [Hdig|Hdig].
  2: { rewrite bool_decide_eq_false_2 by done. simpl.
       split; [|split]; [split; [intros _; right|]; eauto|done|].
       intros []. right. eauto. }
  rewrite bool_decide_eq_true_2 by done. simpl.
  rewrite set_prefix, set_zeros, set_address by done. simpl.
  assert (~ (length (validators state) <= validatorIndex (message signed)
             \/ exists validator,
                  Some v = Some validator /\
                  (slice 0 1 (withdrawalCredentials validator)
                   <> BLS_WITHDRAWAL_PREFIX
                   \/ slice 1 32 (withdrawalCredentials validator)
                      <> slice 1 32
                           (digest (fromBlsPubkey (message signed))))))
    as Hok.
  { intros [Hle|(v' & [= <-] & [Hne|Hne])]; [lia|done..]. }
  split; [|split]; [split|..]; try done.
  intros [e He]. discriminate.
Qed.

(** ** Facts about [getExpectedWithdrawals] *)

Lemma withdrawalsLoop_spec start iterations vals bals currentEpoch :
  length bals = length vals ->
  forall withdrawalIndex validatorIdx withdrawals,
    validatorIdx < length vals ->
    length withdrawals < MAX_WITHDRAWALS_PER_PAYLOAD ->
    withdrawalIndex = (start + Z.of_nat (length withdrawals))%Z ->
    w_index <$> withdrawals = seqZ start (Z.of_nat (length withdrawals)) ->
    exists result,
      withdrawalsLoop iterations vals bals currentEpoch withdrawalIndex
        validatorIdx withdrawals = Ok result /\
      length result <= MAX_WITHDRAWALS_PER_PAYLOAD /\
      w_index <$> result = seqZ start (Z.of_nat (length result)).
Proof.
  intros Hbals.
  induction iterations as [|iterations IH];
    intros wi vi ws Hvi Hroom Hwi Hseq; simpl.
  { exists ws. split; [done|]. split; [lia|done]. }
  destruct (lookup_lt_is_Some_2 vals vi Hvi) as [validator ->].
  destruct (lookup_lt_is_Some_2 bals vi) as [balance ->]; [lia|].
  assert ((vi + 1) `mod` length vals < length vals) as Hnext.
  { apply Nat.mod_upper_bound. lia. }
  case_decide as Hwithdraw.
  - case_decide as Hfull.
    + eexists. split; [done|].
      rewrite length_app in *. simpl in *. split; [lia|].
      rewrite fmap_app, Hseq. simpl.
      replace (length ws + 1) with (S (length ws)) by lia.
      by rewrite seqZ_S, Hwi.
    + apply IH; [done|lia| |].
      * rewrite length_app. simpl. lia.
      * rewrite length_app, fmap_app, Hseq. simpl.
        replace (length ws + 1) with (S (length ws)) by lia.
        by rewrite seqZ_S, Hwi.
  - case_decide as Hfull; [lia|]. by apply IH.
Qed.

(** C9. On every well-formed Capella state, with room for at least one
    withdrawal in a payload, [getExpectedWithdrawals] returns a list of at
    most [MAX_WITHDRAWALS_PER_PAYLOAD] withdrawals whose indices count up
    by one from [state.nextWithdrawalIndex]. *)
Theorem getExpectedWithdrawals_bounded_consecutive state :
  well_formed state ->
  1 <= MAX_WITHDRAWALS_PER_PAYLOAD ->
  exists withdrawals,
    getExpectedWithdrawals state = Ok withdrawals /\
    length withdrawals <= MAX_WITHDRAWALS_PER_PAYLOAD /\
    w_index <$> withdrawals
    = seqZ (nextWithdrawalIndex state) (Z.of_nat (length withdrawals)).
Proof.
  intros [Hbals Hsweep] Hmax. unfold getExpectedWithdrawals.
  destruct (validators state) as [|v vs] eqn:Hvals.
  { exists []. simpl. split; [done|]. split; [lia|done]. }
  rewrite <- Hvals in *.
  apply withdrawalsLoop_spec; simpl; try done; try lia.
  apply Hsweep. by rewrite Hvals.
Qed.

End WithParams.

(** ** Worked scenarios *)

(** The prefixes as the parameters package has them, and a stand-in for
    the digest that suffices to run the function. *)
Definition blsPrefix : list byte := [Byte.x00].
Definition eth1Prefix : list byte := [Byte.x01].
Definition paddedDigest (input : list byte) : list byte :=
  take 32 (input ++ replicate 32 Byte.xff).

Definition pubkeyK : list byte := replicate 48 Byte.x2a.
Definition addressT : list byte := replicate 20 Byte.x77.

Definition blsValidator : Validator :=
  {| effectiveBalance := 32; withdrawableEpoch := 100;
     withdrawalCredentials := Byte.x00 :: replicate 31 Byte.x2a |}.

(** A validator with an execution address, withdrawable at [epoch] with
    effective balance [eff]. *)
Definition eth1Validator (eff epoch : Z) : Validator :=
  {| effectiveBalance := eff; withdrawableEpoch := epoch;
     withdrawalCredentials :=
       Byte.x01 :: replicate 11 Byte.x00 ++ replicate 20 Byte.x77 |}.

Definition oneValidator : CachedBeaconStateCapella :=
  {| epochCtx_epoch := 9; nextWithdrawalIndex := 7;
     nextWithdrawalValidatorIndex := 0;
     validators := [blsValidator]; balances := [33%Z] |}.

Definition changeOf (i : nat) (pubkey : list byte)
  : SignedBLSToExecutionChange :=
  {| message := {| validatorIndex := i; fromBlsPubkey := pubkey;
                   toExecutionAddress := addressT |};
     signature := [] |}.

(** Four validators swept from the third on: the third and the first have
    something to withdraw, the fourth has BLS credentials, the second has
    no excess balance. *)
Definition fourValidators : CachedBeaconStateCapella :=
  {| epochCtx_epoch := 9; nextWithdrawalIndex := 7;
     nextWithdrawalValidatorIndex := 2;
     validators := [eth1Validator 32 100; eth1Validator 32 100;
                    eth1Validator 32 5; blsValidator];
     balances := [40; 32; 31; 50]%Z |}.

Example processBlsToExecutionChange_scenarios :
  processBlsToExecutionChange eth1Prefix blsPrefix paddedDigest
    oneValidator (changeOf 0 pubkeyK)
  = (with_credentials 0
       (Byte.x01 :: replicate 11 Byte.x00 ++ addressT) oneValidator,
     Ok tt) /\
  processBlsToExecutionChange eth1Prefix blsPrefix paddedDigest
    oneValidator (changeOf 1 pubkeyK)
  = (oneValidator, Err (InvalidValidatorIndex 1 1)) /\
  processBlsToExecutionChange eth1Prefix blsPrefix paddedDigest
    oneValidator (changeOf 0 [])
  = (oneValidator, Err InvalidWithdrawalCredentials).
Proof. vm_compute. done. Qed.

Example getExpectedWithdrawals_scenarios :
  getExpectedWithdrawals 32 2 eth1Prefix fourValidators
  = Ok [ {| w_index := 7; w_validatorIndex := 2;
            w_address := replicate 20 Byte.x77; w_amount := 31 |};
         {| w_index := 8; w_validatorIndex := 0;
            w_address := replicate 20 Byte.x77; w_amount := 8 |} ] /\
  getExpectedWithdrawals 32 1 eth1Prefix fourValidators
  = Ok [ {| w_index := 7; w_validatorIndex := 2;
            w_address := replicate 20 Byte.x77; w_amount := 31 |} ].
Proof. vm_compute. done. Qed.

Lemma processBlsToExecutionChange_spec_witness :
  (processBlsToExecutionChange eth1Prefix blsPrefix paddedDigest
     oneValidator (changeOf 0 pubkeyK)).2 = Ok tt /\
  (processBlsToExecutionChange eth1Prefix blsPrefix paddedDigest
     oneValidator (changeOf 0 pubkeyK)).1
  = with_credentials 0
      (eth1Prefix ++ replicate 11 Byte.x00 ++ addressT) oneValidator.
Proof.
  apply (processBlsToExecutionChange_spec eth1Prefix blsPrefix paddedDigest
           oneValidator (changeOf 0 pubkeyK)).
  - reflexivity.
  - intros v [= <-]. reflexivity.
  - reflexivity.
  - intros [Hout|(v & [= <-] & [Hne|Hne])].
    + simpl in Hout. lia.
    + apply Hne. reflexivity.
    + apply Hne. reflexivity.
Defined.

Lemma getExpectedWithdrawals_bounded_consecutive_witness :
  exists withdrawals,
    getExpectedWithdrawals 32 2 eth1Prefix fourValidators = Ok withdrawals /\
    length withdrawals <= 2 /\
    w_index <$> withdrawals = seqZ 7 (Z.of_nat (length withdrawals)).
Proof.
  apply (getExpectedWithdrawals_bounded_consecutive 32 2 eth1Prefix
           fourValidators).
  - split; [reflexivity|]. intros _. simpl. lia.
  - lia.
Defined.

End Capella.

(** * More of the regenerator: ancestry, head access, proposer lookup *)

Module RegenExtra.

Import Regen.

Local Open Scope Z_scope.

Local Notation "'call' x <- m ; k" := (andThen m (fun x => k))
  (at level 10, x name, m at level 100, k at level 200,
   format "'[v' 'call'  x  <-  m ; '/' k ']'").

(** ** Definitions *)

(** The chain of a block in the fork choice: the block, its parent, the
    parent of its parent, as far as [getBlockHex] finds them. *)
Inductive ancestor_or_self (forkChoice : IForkChoice)
  : IProtoBlock -> IProtoBlock -> Prop :=
| aos_self b : ancestor_or_self forkChoice b b
| aos_parent b p a :
    getBlockHex forkChoice (parentRoot b) = Some p ->
    ancestor_or_self forkChoice p a ->
    ancestor_or_self forkChoice b a.

(** [a] is the last block before slot [T] on the chain of [b]. *)
Definition last_before (forkChoice : IForkChoice) (T : Slot)
    (b a : IProtoBlock) : Prop :=
  ancestor_or_self forkChoice b a /\
  slot a < T /\
  forall a', ancestor_or_self forkChoice b a' -> slot a' < T ->
             slot a' <= slot a.

(** The walk of [getDependantRootAtEpoch] that ends with [block === null]:
    a block above the target slot whose next hop the fork choice does not
    have. *)
Inductive walk_dead_end (forkChoice : IForkChoice) (target_slot : Slot)
  : IProtoBlock -> Prop :=
| dead_parent b :
    target_slot < slot b ->
    blockRoot b = targetRoot b ->
    getBlockHex forkChoice (parentRoot b) = None ->
    walk_dead_end forkChoice target_slot b
| dead_target b :
    target_slot < slot b ->
    blockRoot b <> targetRoot b ->
    getBlockHex forkChoice (targetRoot b) = None ->
    walk_dead_end forkChoice target_slot b
| dead_step_parent b p :
    target_slot < slot b ->
    blockRoot b = targetRoot b ->
    getBlockHex forkChoice (parentRoot b) = Some p ->
    walk_dead_end forkChoice target_slot p ->
    walk_dead_end forkChoice target_slot b
| dead_step_target b t :
    target_slot < slot b ->
    blockRoot b <> targetRoot b ->
    getBlockHex forkChoice (targetRoot b) = Some t ->
    walk_dead_end forkChoice target_slot t ->
    walk_dead_end forkChoice target_slot b.

(** Errors of the head accessors. *)
Inductive HeadError : Type :=
| HeadStateNotAvailable
    (* "Head state not available" *)
| TransitionFailed
    (* [processSlotsToNearestCheckpoint] threw *).

(** The two index tiers of [QueuedStateRegenerator] beside
    [dependantRootCacheNext]: [addPostState] writes them. *)
Record OtherTiers : Type := {
  dependantRootCacheCurr : DependantRootCache;
  dependantRootCachePrev : DependantRootCache;
}.

(** [cache.getOrDefault(e).getOrDefault(dependantRoot).add(stateWeakRef)]
    on a [MapDef] of [MapDef]s of sets: missing entries are created empty,
    and the fresh weak reference joins its set last. *)
Definition addToTier (cache : DependantRootCache) (e : Epoch)
    (dependantRoot : RootHex) (stateWeakRef : WeakRef CachedBeaconState)
  : DependantRootCache :=
  let byRoot := default ∅ (cache !! e) in
  let states := default [] (byRoot !! dependantRoot) in
  <[e := <[dependantRoot := states ++ [stateWeakRef]]> byRoot]> cache.

(** [jobQueue.push] for [getBlockSlotState]: the method always enqueues. *)
Definition getBlockSlotState (this : QueuedStateRegenerator)
    (blockRoot : RootHex) (s : Slot) (rCaller : RegenCaller)
  : QueuedStateRegenerator * Promise CachedBeaconState :=
  let this := incCallTotal rCaller FnGetBlockSlotState this in
  (* The state is not immediately available in the caches, enqueue the job *)
  enqueue this (ReqGetBlockSlotState blockRoot s rCaller).

Section WithPreset.

Variable SLOTS_PER_EPOCH : Z.

(** [processSlotsToNearestCheckpoint] of the regen package, which the head
    accessors call; [None] when it throws. *)
Variable processSlotsToNearestCheckpoint :
  CachedBeaconState -> Slot -> option CachedBeaconState.

(** What a fork choice guarantees on the chain of [from]: blocks are stored
    under their root, a parent is at a lower slot than its child, and the
    target of a block that is not its own target is the last block of its
    chain at or before the first slot of its epoch, whenever the chain has
    one. *)
Record chain_wf (forkChoice : IForkChoice) (from : IProtoBlock) : Prop := {
  wf_keyed : forall r b,
    getBlockHex forkChoice r = Some b -> blockRoot b = r;
  wf_parent : forall b p,
    ancestor_or_self forkChoice from b ->
    getBlockHex forkChoice (parentRoot b) = Some p ->
    slot p < slot b;
  wf_target : forall b a,
    ancestor_or_self forkChoice from b ->
    blockRoot b <> targetRoot b ->
    ancestor_or_self forkChoice b a ->
    slot a <= computeStartSlotAtEpoch SLOTS_PER_EPOCH
                (computeEpochAtSlot SLOTS_PER_EPOCH (slot b)) ->
    exists t,
      getBlockHex forkChoice (targetRoot b) = Some t /\
      ancestor_or_self forkChoice b t /\
      slot t <= computeStartSlotAtEpoch SLOTS_PER_EPOCH
                  (computeEpochAtSlot SLOTS_PER_EPOCH (slot b)) /\
      slot a <= slot t;
}.

Definition getHeadStateAtEpoch (this : QueuedStateRegenerator) (e : Epoch)
  : Result HeadError CachedBeaconState :=
  match headState this with
  | None => Err HeadStateNotAvailable
  | Some hs =>
      if decide (head_epoch (head this) <= e) then Ok hs
      else
        let s := computeStartSlotAtEpoch SLOTS_PER_EPOCH e in
        match processSlotsToNearestCheckpoint hs s with
        | Some state => Ok state
        | None => Err TransitionFailed
        end
  end.

Definition getHeadStateAtSlot (this : QueuedStateRegenerator) (s : Slot)
  : Result HeadError CachedBeaconState :=
  match headState this with
  | None => Err HeadStateNotAvailable
  | Some hs =>
      if decide (head_slot (head this) <= s) then Ok hs
      else
        match processSlotsToNearestCheckpoint hs s with
        | Some state => Ok state
        | None => Err TransitionFailed
        end
  end.

Definition getProposerShuffling (fuel : nat) (this : QueuedStateRegenerator)
    (parentBlock : IProtoBlock) (blockSlot : Slot)
  : option (QueuedStateRegenerator * Result RegenError (list nat)) :=
  (* Look for a state with the same shuffling checkpoint *)
  let blockEpoch := computeEpochAtSlot SLOTS_PER_EPOCH blockSlot in
  match getDependantRootAtEpoch SLOTS_PER_EPOCH fuel (forkChoice this)
          parentBlock blockEpoch with
  | None => None
  | Some (Err e) => Some (this, Err e)
  | Some (Ok dependantRoot) =>
      (* Check head state *)
      let fromHead :=
        match headState this with
        | Some hs =>
            if decide (head_epoch (head this) = blockEpoch) then
              if decide (dependantRootNext (head this) = dependantRoot)
              then Some (proposers hs) else None
            else None
        | None => None
        end in
      match fromHead with
      | Some shuffling => Some (this, Ok shuffling)
      | None =>
          (* Check cache by dependantRoot *)
          let '(this, found) := probeIndex this blockEpoch dependantRoot in
          match found with
          | Some state => Some (this, Ok (proposers state))
          | None =>
              (* go fetch to the DB *)
              match store this blockEpoch dependantRoot with
              | Some state => Some (this, Ok (proposers state))
              | None => Some (this, Err Persistent)
              end
          end
      end
  end.

Definition addPostState (fuel : nat) (this : QueuedStateRegenerator)
    (tiers : OtherTiers) (state : CachedBeaconState) (block : IProtoBlock)
  : option (Result RegenError (QueuedStateRegenerator * OtherTiers)) :=
  let stateEpoch := computeEpochAtSlot SLOTS_PER_EPOCH (st_slot state) in
  let stateEpochPlus1 := Z.max (stateEpoch - 1) 0 in
  let stateEpochPlus2 := Z.max (stateEpoch - 2) 0 in
  call dependantRootEpoch <-
    getDependantRootAtEpoch SLOTS_PER_EPOCH fuel (forkChoice this) block
      stateEpoch;
  call dependantRootEpochPlus1 <-
    getDependantRootAtEpoch SLOTS_PER_EPOCH fuel (forkChoice this) block
      stateEpochPlus1;
  call dependantRootEpochPlus2 <-
    getDependantRootAtEpoch SLOTS_PER_EPOCH fuel (forkChoice this) block
      stateEpochPlus2;
  let stateWeakRef : WeakRef CachedBeaconState := Some state in
  Some (Ok
    (with_dependantRootCacheNext
       (addToTier (dependantRootCacheNext this) stateEpoch
          dependantRootEpoch stateWeakRef) this,
     {| dependantRootCacheCurr :=
          addToTier (dependantRootCacheCurr tiers) stateEpochPlus1
            dependantRootEpochPlus1 stateWeakRef;
        dependantRootCachePrev :=
          addToTier (dependantRootCachePrev tiers) stateEpochPlus2
            dependantRootEpochPlus2 stateWeakRef |})).

(** The proposer lookup in words: the head state when the head is at the
    block's epoch with the same dependant root, else the first live state
    of the index bucket, else the persistent store. *)
Definition proposer_lookup_spec (fuel : nat) (this : QueuedStateRegenerator)
    (parentBlock : IProtoBlock) (blockSlot : Slot)
  : option (Result RegenError (list nat)) :=
  let E := computeEpochAtSlot SLOTS_PER_EPOCH blockSlot in
  call D <- getDependantRootAtEpoch SLOTS_PER_EPOCH fuel (forkChoice this)
              parentBlock E;
  match headState this with
  | Some head_state =>
      if decide (head_epoch (head this) = E
                 /\ dependantRootNext (head this) = D)
      then Some (Ok (proposers head_state))
      else
        match first_live (bucket this E D) with
        | Some state => Some (Ok (proposers state))
        | None =>
            match store this E D with
            | Some state => Some (Ok (proposers state))
            | None => Some (Err Persistent)
            end
        end
  | None =>
      match first_live (bucket this E D) with
      | Some state => Some (Ok (proposers state))
      | None =>
          match store this E D with
          | Some state => Some (Ok (proposers state))
          | None => Some (Err Persistent)
          end
      end
  end.

(** ** Facts about the chain of a block *)

Lemma aos_trans fc a b c :
  ancestor_or_self fc a b -> ancestor_or_self fc b c ->
  ancestor_or_self fc a c.
Proof.
  induction 1 as [b|b p a Hp _ IH]; [done|].
  intros Hc. eapply aos_parent; eauto.
Qed.

Lemma chain_wf_ancestor fc from b :
  chain_wf fc from -> ancestor_or_self fc from b -> chain_wf fc b.
Proof.
  intros [Hk Hp Ht] Hb. split.
  - exact Hk.
  - intros c p Hc. apply Hp. by eapply aos_trans.
  - intros c a Hc. apply Ht. by eapply aos_trans.
Qed.

(** On a well-formed chain the slots go down strictly. *)
Lemma aos_slot fc from a :
  chain_wf fc from -> ancestor_or_self fc from a ->
  slot a <= slot from /\ (slot a = slot from -> a = from).
Proof.
  intros Hwf Ha. induction Ha as [b|b p a Hp Ha IH]; [done|].
  assert (slot p < slot b) as Hlt.
  { eapply wf_parent; [exact Hwf|apply aos_self|exact Hp]. }
  destruct IH as [Hle _].
  { eapply chain_wf_ancestor; [exact Hwf|].
    eapply aos_parent; [exact Hp|apply aos_self]. }
  split; lia.
Qed.

(** A chain is a line: of two blocks on it, the lower is on the chain of
    the higher. *)
Lemma aos_linear fc b x y :
  chain_wf fc b ->
  ancestor_or_self fc b x -> ancestor_or_self fc b y ->
  slot x <= slot y ->
  ancestor_or_self fc y x.
Proof.
  intros Hwf Hx Hy. revert x Hx.
  induction Hy as [b|b p y Hp Hy IH]; intros x Hx Hle; [done|].
  assert (chain_wf fc p) as Hwfp.
  { eapply chain_wf_ancestor; [exact Hwf|].
    eapply aos_parent; [exact Hp|apply aos_self]. }
  assert (slot p < slot b) as Hlt.
  { eapply wf_parent; [exact Hwf|apply aos_self|exact Hp]. }
  inversion Hx as [|b' p' x' Hp' Hx']; subst.
  - destruct (aos_slot fc p y Hwfp Hy) as [Hyp _]. lia.
  - rewrite Hp in Hp'. injection Hp' as <-. by apply IH.
Qed.

Lemma epoch_start_le E s :
  0 < SLOTS_PER_EPOCH ->
  computeStartSlotAtEpoch SLOTS_PER_EPOCH E < s ->
  computeStartSlotAtEpoch SLOTS_PER_EPOCH E
  <= computeStartSlotAtEpoch SLOTS_PER_EPOCH
       (computeEpochAtSlot SLOTS_PER_EPOCH s).
Proof.
  unfold computeStartSlotAtEpoch, computeEpochAtSlot. intros Hspe Hlt.
  apply Z.mul_le_mono_nonneg_r; [lia|].
  apply Z.div_le_lower_bound; lia.
Qed.

(** The walk of the resolver reaches the last block before the target
    slot. *)
Lemma last_before_walk fc E a :
  0 < SLOTS_PER_EPOCH ->
  forall (n : nat) b,
    slot b - computeStartSlotAtEpoch SLOTS_PER_EPOCH E < Z.of_nat n ->
    chain_wf fc b ->
    last_before fc (computeStartSlotAtEpoch SLOTS_PER_EPOCH E) b a ->
    dependant_root_walk fc (computeStartSlotAtEpoch SLOTS_PER_EPOCH E) b
      (blockRoot a).
Proof.
  intros Hspe. set (T := computeStartSlotAtEpoch SLOTS_PER_EPOCH E).
  induction n as [|n IH]; intros b Hn Hwf (Ha & HaT & Hmax).
  { (* the block is below the target: it is its own answer *)
    assert (slot b < T) as Hb by lia.
    destruct (aos_slot fc b a Hwf Ha) as [Hle Heq].
    specialize (Hmax b (aos_self fc b) Hb).
    rewrite (Heq ltac:(lia)). by apply walk_below_target. }
  destruct (Z.lt_trichotomy (slot b) T) as [Hb|[Hb|Hb]].
  - destruct (aos_slot fc b a Hwf Ha) as [Hle Heq].
    specialize (Hmax b (aos_self fc b) Hb).
    rewrite (Heq ltac:(lia)). by apply walk_below_target.
  - (* at the target slot: the parent is the answer *)
    inversion Ha as [|b' p a' Hp Hpa]; subst; [lia|].
    assert (chain_wf fc p) as Hwfp.
    { eapply chain_wf_ancestor; [exact Hwf|].
      eapply aos_parent; [exact Hp|apply aos_self]. }
    assert (slot p < slot b) as Hlt.
    { eapply wf_parent; [exact Hwf|apply aos_self|exact Hp]. }
    destruct (aos_slot fc p a Hwfp Hpa) as [Hle Heq].
    assert (slot p <= slot a) as Hge.
    { apply Hmax; [|lia]. eapply aos_parent; [exact Hp|apply aos_self]. }
    rewrite (Heq ltac:(lia)).
    rewrite (wf_keyed fc b Hwf _ _ Hp).
    by apply walk_at_target.
  - (* above the target slot: one hop, then the same answer *)
    assert (a <> b) as Hab by (intros ->; lia).
    destruct (decide (blockRoot b = targetRoot b)) as [Hself|Hother].
    + inversion Ha as [|b' p a' Hp Hpa]; subst; [done|].
      assert (ancestor_or_self fc b p) as Hbp.
      { eapply aos_parent; [exact Hp|apply aos_self]. }
      assert (slot p < slot b) as Hlt.
      { eapply wf_parent; [exact Hwf|apply aos_self|exact Hp]. }
      eapply walk_step_parent; [done..|].
      apply IH; [lia|by eapply chain_wf_ancestor|].
      split; [done|]. split; [done|].
      intros a' Ha'. apply Hmax. by eapply aos_trans.
    + pose proof (epoch_start_le E (slot b) Hspe Hb) as Hstart.
      destruct (wf_target fc b Hwf b a (aos_self fc b) Hother Ha)
        as (t & Ht & Hbt & HtS & Hat); [fold T in Hstart; lia|].
      assert (t <> b) as Htb.
      { intros ->. apply Hother. exact (wf_keyed fc b Hwf _ _ Ht). }
      destruct (aos_slot fc b t Hwf Hbt) as [Hle Heq].
      eapply walk_step_target; [done..|].
      apply IH.
      * assert (slot t <> slot b) by (intros He; by apply Htb, Heq). lia.
      * by eapply chain_wf_ancestor.
      * split; [by eapply aos_linear|]. split; [done|].
        intros a' Ha'. apply Hmax. by eapply aos_trans.
Qed.

Lemma last_before_resolves fc fromBlock E a :
  0 < SLOTS_PER_EPOCH ->
  1 <= E ->
  chain_wf fc fromBlock ->
  last_before fc (computeStartSlotAtEpoch SLOTS_PER_EPOCH E) fromBlock a ->
  exists fuel,
    forall fuel', (fuel <= fuel')%nat ->
      getDependantRootAtEpoch SLOTS_PER_EPOCH fuel' fc fromBlock E
      = Some (Ok (blockRoot a)).
Proof.
  intros Hspe HE Hwf Hlast.
  assert (dependant_root_walk fc (computeStartSlotAtEpoch SLOTS_PER_EPOCH E)
            fromBlock (blockRoot a)) as Hwalk.
  { apply (last_before_walk fc E a Hspe
             (Z.to_nat (slot fromBlock
                        - computeStartSlotAtEpoch SLOTS_PER_EPOCH E) + 1));
      [lia|done..]. }
  apply walk_dependantRootLoop in Hwalk as [fuel Hloop].
  exists fuel. intros fuel' Hle.
  unfold getDependantRootAtEpoch. rewrite decide_False by lia.
  by rewrite (dependantRootLoop_fuel_mono _ _ _ _ _ _ Hloop Hle).
Qed.

(** The source's own description of the resolver: for an epoch [E >= 1],
    on a well-formed chain on which some block lies before the first slot
    of [E], it returns the root of the last such block. *)
Theorem getDependantRootAtEpoch_last_before fc fromBlock E a :
  0 < SLOTS_PER_EPOCH ->
  1 <= E ->
  chain_wf fc fromBlock ->
  last_before fc (computeStartSlotAtEpoch SLOTS_PER_EPOCH E) fromBlock a ->
  exists fuel,
    forall fuel', (fuel <= fuel')%nat ->
      getDependantRootAtEpoch SLOTS_PER_EPOCH fuel' fc fromBlock E
      = Some (Ok (blockRoot a)).
Proof. apply last_before_resolves. Qed.

(** Blocks of one chain at or after the first slot of [E] share their
    dependant root for [E]: it is the one of any descendant. *)
Theorem getDependantRootAtEpoch_same_on_chain fc fromBlock x E a :
  0 < SLOTS_PER_EPOCH ->
  1 <= E ->
  chain_wf fc fromBlock ->
  last_before fc (computeStartSlotAtEpoch SLOTS_PER_EPOCH E) fromBlock a ->
  ancestor_or_self fc fromBlock x ->
  computeStartSlotAtEpoch SLOTS_PER_EPOCH E <= slot x ->
  exists fuel,
    forall fuel', (fuel <= fuel')%nat ->
      getDependantRootAtEpoch SLOTS_PER_EPOCH fuel' fc x E
      = getDependantRootAtEpoch SLOTS_PER_EPOCH fuel' fc fromBlock E /\
      getDependantRootAtEpoch SLOTS_PER_EPOCH fuel' fc x E
      = Some (Ok (blockRoot a)).
Proof.
  intros Hspe HE Hwf (Ha & HaT & Hmax) Hx HxT.
  assert (last_before fc (computeStartSlotAtEpoch SLOTS_PER_EPOCH E) x a)
    as Hlastx.
  { split; [eapply aos_linear; [exact Hwf|done..|lia]|].
    split; [done|]. intros a' Ha'. apply Hmax. by eapply aos_trans. }
  destruct (last_before_resolves fc fromBlock E a)
    as [f1 H1]; [done..|].
  destruct (last_before_resolves fc x E a)
    as [f2 H2]; [done|done|by eapply chain_wf_ancestor|done|].
  exists (f1 + f2)%nat. intros fuel' Hle.
  rewrite H1, H2 by lia. done.
Qed.

(** ** When the resolver throws *)

Lemma dependantRootLoop_dead_end fuel fc target b :
  dependantRootLoop fuel fc target (Some b) = Some None ->
  walk_dead_end fc target b.
Proof.
  revert b. induction fuel as [|fuel IH]; intros b Hrun; [discriminate|].
  simpl in Hrun.
  destruct (decide (slot b = target)); [discriminate|].
  destruct (decide (slot b < target)); [discriminate|].
  destruct (decide (blockRoot b = targetRoot b)).
  - destruct (getBlockHex fc (parentRoot b)) as [p|] eqn:Hp.
    + eapply dead_step_parent; eauto with lia.
    + apply dead_parent; auto with lia.
  - destruct (getBlockHex fc (targetRoot b)) as [t|] eqn:Ht.
    + eapply dead_step_target; eauto with lia.
    + apply dead_target; auto with lia.
Qed.

Lemma dead_end_dependantRootLoop fc target b :
  walk_dead_end fc target b ->
  exists fuel, dependantRootLoop fuel fc target (Some b) = Some None.
Proof.
  induction 1 as [b Hgt Hself Hp|b Hgt Hother Ht
                 |b p Hgt Hself Hp _ [fuel IH]
                 |b t Hgt Hother Ht _ [fuel IH]].
  - exists 2%nat. simpl.
    rewrite decide_False by lia. rewrite decide_False by lia.
    rewrite decide_True by done. by rewrite Hp.
  - exists 2%nat. simpl.
    rewrite decide_False by lia. rewrite decide_False by lia.
    rewrite decide_False by done. by rewrite Ht.
  - exists (S fuel). simpl.
    rewrite decide_False by lia. rewrite decide_False by lia.
    rewrite decide_True by done. by rewrite Hp.
  - exists (S fuel). simpl.
    rewrite decide_False by lia. rewrite decide_False by lia.
    rewrite decide_False by done. by rewrite Ht.
Qed.

(** For an epoch [E >= 1] the resolver throws exactly when its walk arrives
    above the target slot at a block whose next hop the fork choice does
    not have; the error is the one for an epoch before the finalized epoch
    when [E] is below it, and otherwise names the root and slot of the
    block the walk started from. *)
Theorem getDependantRootAtEpoch_throws_iff fc fromBlock E e :
  1 <= E ->
  (exists fuel,
     getDependantRootAtEpoch SLOTS_PER_EPOCH fuel fc fromBlock E
     = Some (Err e))
  <-> (walk_dead_end fc (computeStartSlotAtEpoch SLOTS_PER_EPOCH E) fromBlock
       /\ e = if decide (E < cp_epoch (getFinalizedCheckpoint fc))
              then BeforeFinalized (cp_epoch (getFinalizedCheckpoint fc))
              else Unresolvable (blockRoot fromBlock) (slot fromBlock)).
Proof.
  intros HE. split.
  - intros [fuel Hrun]. unfold getDependantRootAtEpoch in Hrun.
    rewrite decide_False in Hrun by lia.
    destruct (dependantRootLoop fuel fc _ _) as [[r|]|] eqn:Hloop;
      [done| |done].
    split; [by eapply dependantRootLoop_dead_end|].
    case_decide; congruence.
  - intros [Hdead ->].
    apply dead_end_dependantRootLoop in Hdead as [fuel Hloop].
    exists fuel. unfold getDependantRootAtEpoch.
    rewrite decide_False by lia. rewrite Hloop. by case_decide.
Qed.

(** ** Head recovery *)

Lemma selectHeadState_miss this b p :
  selectHeadState this b p = None ->
  stateCache this !! stateRoot b = None.
Proof.
  unfold selectHeadState.
  destruct (getLatest _ _ _); [by repeat case_match|].
  by repeat case_match.
Qed.

Lemma runCallbacks_install (state : CachedBeaconState)
    (cbs : list (nat * Callback)) this :
  cbs <> [] ->
  headState (foldl (fun acc '(_, cb) => runCallback cb state acc) this cbs)
  = Some state.
Proof.
  revert this. induction cbs as [|[id cb] cbs IH]; intros this Hne; [done|].
  simpl. destruct cbs as [|c cbs]; [by destruct cb|].
  by apply IH.
Qed.

(** What [setHead] leaves when neither the candidate nor the caches give
    the head state: the new head, no head state, and the outcome of the
    [getState] it starts. *)
Lemma setHead_miss_inv fuel this b p this' :
  setHead SLOTS_PER_EPOCH fuel this b p = Some (Ok this') ->
  selectHeadState this b p = None ->
  exists base,
    jobQueue base = jobQueue this /\ stateCache base = stateCache this /\
    thenCallbacks base = thenCallbacks this /\
    microtasks base = microtasks this /\ headState base = None /\
    head_stateRoot (head base) = stateRoot b /\
    this' = promiseThen InstallHeadState
              (enqueue base (ReqGetState (stateRoot b) regenHeadState)).2
              (enqueue base (ReqGetState (stateRoot b) regenHeadState)).1.
Proof.
  intros Hret Hmiss.
  destruct (setHead_returns_inv _ _ _ _ _ _ Hret)
    as (next & curr & prev & _ & _ & _ & Hthis').
  cbv zeta in Hthis'.
  set (this1 := with_head _ this) in Hthis'.
  change (selectHeadState this1 b p) with (selectHeadState this b p)
    in Hthis'.
  rewrite Hmiss in Hthis'.
  set (this2 := with_headState None this1) in Hthis'.
  pose proof (incCallTotal_frame regenHeadState FnGetState this2) as Hc.
  pose proof (incQueuedTotal_frame regenHeadState FnGetState
                (incCallTotal regenHeadState FnGetState this2)) as Hq.
  simpl in Hc, Hq.
  exists (incQueuedTotal regenHeadState FnGetState
            (incCallTotal regenHeadState FnGetState this2)).
  destruct Hc as (Hc1 & Hc2 & Hc3 & Hc4 & Hc5 & Hc6 & Hc7 & Hc8 & Hc9 & Hc10).
  destruct Hq as (Hq1 & Hq2 & Hq3 & Hq4 & Hq5 & Hq6 & Hq7 & Hq8 & Hq9 & Hq10).
  rewrite Hq1, Hq3, Hq9, Hq10, Hq6, Hq5, Hc1, Hc3, Hc9, Hc10, Hc6, Hc5.
  do 6 (split; [done|]).
  subst this'. unfold getState.
  rewrite Hc3.
  change (stateCache this2) with (stateCache this).
  by rewrite (selectHeadState_miss _ _ _ Hmiss).
Qed.

(** Head unavailable, then recovery: when [setHead] finds the head state
    neither in the candidate nor in the caches and the queue takes the
    job, the head state is unavailable, the [getState] job for the head's
    state root is last in the queue, and the state that job resolves with
    becomes the head state. *)
Theorem setHead_miss_recovers fuel this b p this' q id :
  setHead SLOTS_PER_EPOCH fuel this b p = Some (Ok this') ->
  selectHeadState this b p = None ->
  push (jobQueue this) (ReqGetState (stateRoot b) regenHeadState)
  = Ok (q, id) ->
  getHeadState this' = None /\
  jobQueue this' = q /\
  last (pending (jobQueue this'))
  = Some {| job_id := id;
            job_request := ReqGetState (stateRoot b) regenHeadState |} /\
  forall state,
    headState (jobResolved this' id state) = Some state /\
    getHeadState (jobResolved this' id state) = Some state.
Proof.
  intros Hret Hmiss Hpush.
  destruct (setHead_miss_inv _ _ _ _ _ Hret Hmiss)
    as (base & Hq & Hsc & Hcb & Hmt & Hhs & Hroot & ->).
  unfold enqueue. rewrite Hq, Hpush. simpl.
  split; [|split; [done|split]].
  - unfold getHeadState. simpl. rewrite Hhs, Hroot, Hsc.
    rewrite (selectHeadState_miss _ _ _ Hmiss). by case_decide.
  - unfold push in Hpush. case_decide; [done|].
    injection Hpush as <- <-. simpl. by rewrite last_snoc.
  - intros state.
    assert (headState
              (jobResolved
                 (with_callbacks (thenCallbacks base ++ [(id, InstallHeadState)])
                    (microtasks base) (with_jobQueue q base)) id state)
            = Some state) as Hinstalled.
    { unfold jobResolved. cbv zeta. apply runCallbacks_install.
      simpl. rewrite filter_app.
      rewrite (filter_cons_True _ (id, InstallHeadState)) by done.
      by destruct (filter _ (thenCallbacks base)). }
    split; [done|]. unfold getHeadState. by rewrite Hinstalled.
Qed.

(** When the queue refuses the job, [setHead] still returns: the head
    state is unavailable, nothing is queued and nothing is chained, so no
    later completion installs a head state for this head. *)
Theorem setHead_miss_refused fuel this b p this' e :
  setHead SLOTS_PER_EPOCH fuel this b p = Some (Ok this') ->
  selectHeadState this b p = None ->
  push (jobQueue this) (ReqGetState (stateRoot b) regenHeadState) = Err e ->
  getHeadState this' = None /\
  jobQueue this' = jobQueue this /\
  thenCallbacks this' = thenCallbacks this /\
  microtasks this' = microtasks this.
Proof.
  intros Hret Hmiss Hpush.
  destruct (setHead_miss_inv _ _ _ _ _ Hret Hmiss)
    as (base & Hq & Hsc & Hcb & Hmt & Hhs & Hroot & ->).
  unfold enqueue. rewrite Hq, Hpush. simpl.
  split; [|done].
  unfold getHeadState. rewrite Hhs, Hroot, Hsc.
  rewrite (selectHeadState_miss _ _ _ Hmiss). by case_decide.
Qed.

(** ** Head accessors *)

(** Asking for the head state at an epoch and at the first slot of that
    epoch is the same, except at the head's own epoch: there the epoch
    accessor gives the head state as it is, while the slot accessor does so
    only when the head sits on the first slot. *)
Theorem getHeadStateAtEpoch_as_slot this e :
  0 < SLOTS_PER_EPOCH ->
  head_epoch (head this)
  = computeEpochAtSlot SLOTS_PER_EPOCH (head_slot (head this)) ->
  e <> head_epoch (head this) ->
  getHeadStateAtEpoch this e
  = getHeadStateAtSlot this (computeStartSlotAtEpoch SLOTS_PER_EPOCH e).
Proof.
  intros Hspe Hepoch Hne.
  unfold getHeadStateAtEpoch, getHeadStateAtSlot.
  destruct (headState this) as [hs|]; [|done].
  rewrite Hepoch in *.
  unfold computeEpochAtSlot, computeStartSlotAtEpoch in *.
  pose proof (Z.div_mod (head_slot (head this)) SLOTS_PER_EPOCH
                ltac:(lia)) as Hdm.
  pose proof (Z.mod_pos_bound (head_slot (head this)) SLOTS_PER_EPOCH Hspe)
    as Hmod.
  repeat case_decide; try done; exfalso; nia.
Qed.

(** After [setHead] has installed a matching candidate, the head state at
    any slot or epoch from the head on is that candidate, and the
    transition engine is not called. *)
Theorem setHead_then_head_accessors fuel this b s this' :
  setHead SLOTS_PER_EPOCH fuel this b (Some s) = Some (Ok this') ->
  st_slot s = slot b ->
  st_hashTreeRoot s = stateRoot b ->
  (forall e, computeEpochAtSlot SLOTS_PER_EPOCH (slot b) <= e ->
             getHeadStateAtEpoch this' e = Ok s) /\
  (forall sl, slot b <= sl -> getHeadStateAtSlot this' sl = Ok s).
Proof.
  intros Hret Hslot Hroot.
  destruct (setHead_returns_inv _ _ _ _ _ _ Hret)
    as (next & curr & prev & _ & _ & _ & Hthis').
  simpl in Hthis'. unfold selectHeadState in Hthis'.
  rewrite decide_True in Hthis' by done.
  rewrite decide_True in Hthis' by done.
  subst this'. split.
  - intros e He. unfold getHeadStateAtEpoch. simpl.
    by rewrite decide_True.
  - intros sl Hsl. unfold getHeadStateAtSlot. simpl.
    by rewrite decide_True.
Qed.

(** ** Proposer lookup and the index *)

Lemma probe_idempotent refs : probe (probe refs).2 = probe refs.
Proof. induction refs as [|[state|] refs IH]; simpl; [done..|]. exact IH. Qed.

Lemma bucket_live_probeIndex this e d e' d' :
  omap deref (bucket (probeIndex this e d).1 e' d')
  = omap deref (bucket this e' d').
Proof.
  unfold probeIndex, bucket.
  destruct (dependantRootCacheNext this !! e) as [byRoot|] eqn:He; [|done].
  destruct (byRoot !! d) as [states|] eqn:Hd; [|by rewrite ?He].
  pose proof (probe_keeps_live states) as Hlive.
  destruct (probe states) as [found states']. simpl in Hlive |- *.
  destruct (decide (e = e')) as [<-|Hne].
  - rewrite lookup_insert_eq, He.
    destruct (decide (d = d')) as [<-|Hnd].
    + by rewrite lookup_insert_eq, Hd.
    + by rewrite lookup_insert_ne.
  - by rewrite lookup_insert_ne.
Qed.

(** A probe of the index prunes dead references only: every bucket keeps
    its live states in their order, and a second probe of the same bucket
    finds the same state and changes nothing more. *)
Theorem probeIndex_prunes_dead_only this e d :
  (forall e' d',
     omap deref (bucket (probeIndex this e d).1 e' d')
     = omap deref (bucket this e' d')) /\
  probeIndex (probeIndex this e d).1 e d = probeIndex this e d.
Proof.
  split; [intros e' d'; apply bucket_live_probeIndex|].
  unfold probeIndex.
  destruct (dependantRootCacheNext this !! e) as [byRoot|] eqn:He;
    [|simpl; by rewrite He].
  destruct (byRoot !! d) as [states|] eqn:Hd; [|simpl; by rewrite He, Hd].
  pose proof (probe_idempotent states) as Hidem.
  destruct (probe states) as [found states']. simpl in Hidem |- *.
  rewrite !lookup_insert_eq, Hidem.
  by rewrite !insert_insert_eq.
Qed.

Lemma getProposerShuffling_lookup fuel this parentBlock blockSlot :
  snd <$> getProposerShuffling fuel this parentBlock blockSlot
  = proposer_lookup_spec fuel this parentBlock blockSlot.
Proof.
  unfold getProposerShuffling, proposer_lookup_spec, andThen.
  destruct (getDependantRootAtEpoch _ _ _ _ _) as [[D|?]|]; [|done..].
  pose proof (probeIndex_spec this
                (computeEpochAtSlot SLOTS_PER_EPOCH blockSlot) D) as Hp.
  simpl in Hp. destruct Hp as (Hfound & _ & _ & _ & _ & _ & Hst & _).
  destruct (headState this) as [hs|].
  - destruct (decide (head_epoch (head this) = _)) as [He|He].
    + destruct (decide (dependantRootNext (head this) = D)) as [Hd|Hd].
      * by rewrite decide_True.
      * rewrite decide_False by (intros [? ?]; done).
        destruct (probeIndex this _ D) as [this1 found]. simpl in Hfound, Hst |- *.
        rewrite <- Hfound, Hst. destruct found; [done|].
        by destruct (store this _ _).
    + rewrite decide_False by (intros [? ?]; done).
      destruct (probeIndex this _ D) as [this1 found]. simpl in Hfound, Hst |- *.
      rewrite <- Hfound, Hst. destruct found; [done|].
      by destruct (store this _ _).
  - destruct (probeIndex this _ D) as [this1 found]. simpl in Hfound, Hst |- *.
    rewrite <- Hfound, Hst. destruct found; [done|].
    by destruct (store this _ _).
Qed.

(** [getProposerShuffling] answers with the proposers of the head state
    when the head is at the block's epoch under the same dependant root,
    else of the first live state of the index bucket at that epoch and
    root, and reads the persistent store only when neither exists. *)
Theorem getProposerShuffling_follows_lookup fuel this parentBlock blockSlot :
  snd <$> getProposerShuffling fuel this parentBlock blockSlot
  = proposer_lookup_spec fuel this parentBlock blockSlot.
Proof. apply getProposerShuffling_lookup. Qed.

Lemma bucket_addToTier this e d w :
  bucket (with_dependantRootCacheNext
            (addToTier (dependantRootCacheNext this) e d w) this) e d
  = bucket this e d ++ [w].
Proof.
  unfold bucket, addToTier. simpl.
  rewrite !lookup_insert_eq. simpl.
  destruct (dependantRootCacheNext this !! e) as [byRoot|]; simpl; [done|].
  by rewrite lookup_empty.
Qed.

Lemma first_live_snoc refs s :
  first_live (refs ++ [Some s]) = Some (default s (first_live refs)).
Proof.
  unfold first_live.
  induction refs as [|[state|] refs IH]; simpl; [done..|]. exact IH.
Qed.

(** A state registered by [addPostState] for a block serves the proposer
    lookups of its epoch under the same dependant root from memory: the
    lookup returns the proposers of the head state, of a state that was
    live in the bucket, or of the registered state, and of the registered
    state itself when there was no head state and no live state. It never
    falls through to the persistent store. *)
Theorem addPostState_then_getProposerShuffling
    fuel this tiers s b this' tiers' parentBlock blockSlot D :
  addPostState fuel this tiers s b = Some (Ok (this', tiers')) ->
  computeEpochAtSlot SLOTS_PER_EPOCH blockSlot
  = computeEpochAtSlot SLOTS_PER_EPOCH (st_slot s) ->
  getDependantRootAtEpoch SLOTS_PER_EPOCH fuel (forkChoice this) b
    (computeEpochAtSlot SLOTS_PER_EPOCH (st_slot s)) = Some (Ok D) ->
  getDependantRootAtEpoch SLOTS_PER_EPOCH fuel (forkChoice this) parentBlock
    (computeEpochAtSlot SLOTS_PER_EPOCH (st_slot s)) = Some (Ok D) ->
  exists x,
    snd <$> getProposerShuffling fuel this' parentBlock blockSlot
    = Some (Ok (proposers x)) /\
    (x = s \/ headState this = Some x
     \/ first_live (bucket this
                      (computeEpochAtSlot SLOTS_PER_EPOCH (st_slot s)) D)
        = Some x) /\
    (headState this = None ->
     first_live (bucket this
                   (computeEpochAtSlot SLOTS_PER_EPOCH (st_slot s)) D) = None ->
     x = s).
Proof.
  intros Hadd Hepoch HD Hparent.
  unfold addPostState, andThen in Hadd. rewrite HD in Hadd.
  destruct (getDependantRootAtEpoch _ _ _ _ (Z.max (_ - 1) 0))
    as [[D1|?]|]; [|done..].
  destruct (getDependantRootAtEpoch _ _ _ _ (Z.max (_ - 2) 0))
    as [[D2|?]|]; [|done..].
  injection Hadd as <- <-.
  rewrite getProposerShuffling_lookup.
  unfold proposer_lookup_spec, andThen.
  rewrite Hepoch. simpl. rewrite Hparent.
  rewrite bucket_addToTier, first_live_snoc.
  destruct (headState this) as [hs|] eqn:Hhs.
  - case_decide.
    + exists hs. split; [done|]. split; [by right; left|done].
    + destruct (first_live (bucket this _ D)) as [x|] eqn:Hlive.
      * exists x. simpl. split; [done|]. split; [by right; right|done].
      * exists s. simpl. split; [done|]. split; [by left|done].
  - destruct (first_live (bucket this _ D)) as [x|] eqn:Hlive.
    + exists x. simpl. split; [done|]. split; [by right; right|done].
    + exists s. simpl. split; [done|]. split; [by left|done].
Qed.

(** ** The head and the lookups *)

(** Once [setHead] has installed a matching candidate for a block, the
    proposer lookups for that block in its epoch and the attester lookup
    for the checkpoint of that block and epoch are answered from the head
    state: the index is not probed, the store is not read, and the object
    is left as it is. *)
Theorem setHead_serves_shufflings fuel this b s this' :
  setHead SLOTS_PER_EPOCH fuel this b (Some s) = Some (Ok this') ->
  st_slot s = slot b ->
  st_hashTreeRoot s = stateRoot b ->
  (forall blockSlot,
     computeEpochAtSlot SLOTS_PER_EPOCH blockSlot
     = computeEpochAtSlot SLOTS_PER_EPOCH (slot b) ->
     getProposerShuffling fuel this' b blockSlot
     = Some (this', Ok (proposers s))) /\
  (getBlockHex (forkChoice this) (blockRoot b) = Some b ->
   getAttesterShuffling SLOTS_PER_EPOCH fuel this'
     {| epoch := computeEpochAtSlot SLOTS_PER_EPOCH (slot b);
        root := blockRoot b |}
   = Some (this', Ok (currentShuffling s))).
Proof.
  intros Hret Hslot Hroot.
  destruct (setHead_returns_inv _ _ _ _ _ _ Hret)
    as (next & curr & prev & Hnext & Hcurr & _ & Hthis').
  simpl in Hthis'. unfold selectHeadState in Hthis'.
  rewrite decide_True in Hthis' by done.
  rewrite decide_True in Hthis' by done.
  subst this'. split.
  - intros blockSlot Hepoch. unfold getProposerShuffling.
    rewrite Hepoch. cbn [forkChoice with_headState with_head].
    rewrite Hnext. cbn [headState head with_headState with_head head_epoch
                          dependantRootNext].
    rewrite decide_True by done. by rewrite decide_True.
  - intros Hblock. unfold getAttesterShuffling.
    cbn [forkChoice with_headState with_head root epoch].
    rewrite Hblock, Hcurr. unfold checkHeadShuffling.
    cbn [headState head with_headState with_head head_epoch
           dependantRootCurr].
    rewrite decide_True by done. by rewrite decide_True.
Qed.

(** The head and the head state are written by [setHead] and by the
    completion it chains, and by nothing else: the other methods of the
    facade leave both as they are. *)
Theorem facade_leaves_head this :
  (forall r c,
     head (getState this r c).1 = head this /\
     headState (getState this r c).1 = headState this) /\
  (forall blk c,
     head (getPreState SLOTS_PER_EPOCH this blk c).1 = head this /\
     headState (getPreState SLOTS_PER_EPOCH this blk c).1 = headState this) /\
  (forall r sl c,
     head (getBlockSlotState this r sl c).1 = head this /\
     headState (getBlockSlotState this r sl c).1 = headState this) /\
  (forall fuel target this' res,
     getAttesterShuffling SLOTS_PER_EPOCH fuel this target
     = Some (this', res) ->
     head this' = head this /\ headState this' = headState this) /\
  (forall fuel parentBlock blockSlot this' res,
     getProposerShuffling fuel this parentBlock blockSlot
     = Some (this', res) ->
     head this' = head this /\ headState this' = headState this) /\
  (forall fuel tiers s b this' tiers',
     addPostState fuel this tiers s b = Some (Ok (this', tiers')) ->
     head this' = head this /\ headState this' = headState this).
Proof.
  split; [|split; [|split; [|split; [|split]]]].
  - intros r c.
    by destruct (getState_frame this r c) as (_ & _ & _ & -> & -> & _).
  - intros blk c.
    by destruct (getPreState_frame SLOTS_PER_EPOCH this blk c)
      as (-> & -> & _).
  - intros r sl c. unfold getBlockSlotState.
    destruct (enqueue_frame (incCallTotal c FnGetBlockSlotState this)
                (ReqGetBlockSlotState r sl c))
      as (_ & _ & _ & _ & -> & -> & _).
    by destruct (incCallTotal_frame c FnGetBlockSlotState this)
      as (_ & _ & _ & _ & -> & -> & _).
  - intros fuel target this' res Hrun.
    by destruct (getAttesterShuffling_frame _ _ _ _ _ _ Hrun)
      as (_ & -> & -> & _).
  - intros fuel parentBlock blockSlot this' res.
    unfold getProposerShuffling.
    destruct (getDependantRootAtEpoch _ _ _ _ _) as [[D|?]|];
      [|by intros [= <- <-]|done].
    destruct (match headState this with Some _ => _ | None => _ end);
      [by intros [= <- <-]|].
    pose proof (probeIndex_spec this
                  (computeEpochAtSlot SLOTS_PER_EPOCH blockSlot) D) as Hp.
    destruct (probeIndex this _ D) as [this1 found].
    simpl in Hp. destruct Hp as (_ & _ & _ & _ & Hh & Hhs & _).
    destruct found; [intros [= <- <-]; done|].
    destruct (store this1 _ _); intros [= <- <-]; done.
  - intros fuel tiers s b this' tiers'. unfold addPostState, andThen.
    destruct (getDependantRootAtEpoch _ _ _ _ _) as [[D0|?]|]; [|done..].
    destruct (getDependantRootAtEpoch _ _ _ _ _) as [[D1|?]|]; [|done..].
    destruct (getDependantRootAtEpoch _ _ _ _ _) as [[D2|?]|]; [|done..].
    by intros [= <- <-].
Qed.

End WithPreset.

(** ** Worked scenarios, on epochs of 32 slots *)

Local Open Scope string_scope.

(** A chain whose targets are the checkpoint blocks: genesis at slot 0, A
    at slot 5, then B at slot 40 and C at slot 45 in epoch 1, whose first
    slot is empty, so that A is the target of both. *)
Definition blockB1 : IProtoBlock := mkBlock 40 "0xB" "0xA" "0xSB" "0xA".
Definition blockC1 : IProtoBlock := mkBlock 45 "0xC" "0xB" "0xSC" "0xA".

Definition chainW : IForkChoice :=
  {| fc_blocks :=
       <["0xG" := blockG]> (<["0xA" := blockA]> (<["0xB" := blockB1]>
         (<["0xC" := blockC1]> ∅)));
     fc_finalized := {| cp_epoch := 0; cp_rootHex := "0xG" |} |}.

Definition emptyTiers : OtherTiers :=
  {| dependantRootCacheCurr := ∅; dependantRootCachePrev := ∅ |}.

(** [addPostState(stateB, B)] on a fresh regenerator. *)
Definition registeredB : QueuedStateRegenerator * OtherTiers :=
  match addPostState 32 3 coldRegen emptyTiers stateB blockB with
  | Some (Ok r) => r
  | _ => (coldRegen, emptyTiers)
  end.

(** [setHead(B)] without a state at hand on a regenerator whose queue is
    full. *)
Definition headAtBQueueFull : QueuedStateRegenerator :=
  returned (setHead 32 3 (afterMisses 256) blockB None) coldRegen.

Lemma chainW_blocks r b :
  getBlockHex chainW r = Some b ->
  (r = "0xG" /\ b = blockG) \/ (r = "0xA" /\ b = blockA) \/
  (r = "0xB" /\ b = blockB1) \/ (r = "0xC" /\ b = blockC1).
Proof.
  unfold getBlockHex, chainW. simpl.
  rewrite lookup_insert. case_decide; [subst; intros [= <-]; naive_solver|].
  rewrite lookup_insert. case_decide; [subst; intros [= <-]; naive_solver|].
  rewrite lookup_insert. case_decide; [subst; intros [= <-]; naive_solver|].
  rewrite lookup_insert. case_decide; [subst; intros [= <-]; naive_solver|].
  by rewrite lookup_empty.
Qed.

Lemma chainW_ancestors x :
  ancestor_or_self chainW blockC1 x ->
  x = blockC1 \/ x = blockB1 \/ x = blockA \/ x = blockG.
Proof.
  intros H.
  inversion H as [|? p ? Hp Hpx]; subst; [tauto|].
  vm_compute in Hp. injection Hp as <-.
  inversion Hpx as [|? p ? Hp Hpx']; subst; [tauto|].
  vm_compute in Hp. injection Hp as <-.
  inversion Hpx' as [|? p ? Hp Hpx'']; subst; [tauto|].
  vm_compute in Hp. injection Hp as <-.
  inversion Hpx'' as [|? p ? Hp _]; subst; [tauto|].
  vm_compute in Hp. discriminate.
Qed.

Lemma chainW_C_B : ancestor_or_self chainW blockC1 blockB1.
Proof. eapply aos_parent; [reflexivity|apply aos_self]. Qed.

Lemma chainW_B_A : ancestor_or_self chainW blockB1 blockA.
Proof. eapply aos_parent; [reflexivity|apply aos_self]. Qed.

Lemma chainW_C_A : ancestor_or_self chainW blockC1 blockA.
Proof. eapply aos_trans; [apply chainW_C_B|apply chainW_B_A]. Qed.

Lemma chainW_wf : chain_wf 32 chainW blockC1.
Proof.
  split.
  - intros r b Hb.
    destruct (chainW_blocks r b Hb) as [[? ?]|[[? ?]|[[? ?]|[? ?]]]];
      subst; reflexivity.
  - intros b p Hb Hp.
    destruct (chainW_ancestors b Hb) as [-> | [-> | [-> | ->]]];
      vm_compute in Hp; try discriminate; injection Hp as <-; reflexivity.
  - intros b a Hb Hother Ha Hslot.
    destruct (chainW_ancestors b Hb) as [-> | [-> | [-> | ->]]].
    + exists blockA. split; [reflexivity|]. split; [apply chainW_C_A|].
      split; [by vm_compute|].
      destruct (chainW_ancestors a Ha) as [-> | [-> | [-> | ->]]];
        vm_compute in Hslot; vm_compute; congruence.
    + exists blockA. split; [reflexivity|]. split; [apply chainW_B_A|].
      split; [by vm_compute|].
      assert (ancestor_or_self chainW blockC1 a) as Hca
        by (eapply aos_trans; [apply chainW_C_B|exact Ha]).
      destruct (chainW_ancestors a Hca) as [-> | [-> | [-> | ->]]];
        vm_compute in Hslot; vm_compute; congruence.
    + exists blockG. split; [reflexivity|].
      split; [eapply aos_parent; [reflexivity|apply aos_self]|].
      split; [by vm_compute|].
      assert (ancestor_or_self chainW blockC1 a) as Hca
        by (eapply aos_trans; [apply chainW_C_A|exact Ha]).
      destruct (chainW_ancestors a Hca) as [-> | [-> | [-> | ->]]];
        vm_compute in Hslot; vm_compute; congruence.
    + by contradict Hother.
Qed.

Lemma chainW_last_before :
  last_before chainW (computeStartSlotAtEpoch 32 1) blockC1 blockA.
Proof.
  split; [apply chainW_C_A|]. split; [by vm_compute|].
  intros a Ha Hslot.
  destruct (chainW_ancestors a Ha) as [-> | [-> | [-> | ->]]];
    vm_compute in Hslot; vm_compute; congruence.
Qed.

Lemma getDependantRootAtEpoch_last_before_witness :
  exists fuel,
    forall fuel', (fuel <= fuel')%nat ->
      getDependantRootAtEpoch 32 fuel' chainW blockC1 1 = Some (Ok "0xA").
Proof.
  apply (getDependantRootAtEpoch_last_before 32 chainW blockC1 1 blockA).
  - lia.
  - lia.
  - apply chainW_wf.
  - apply chainW_last_before.
Defined.

Lemma getDependantRootAtEpoch_same_on_chain_witness :
  exists fuel,
    forall fuel', (fuel <= fuel')%nat ->
      getDependantRootAtEpoch 32 fuel' chainW blockB1 1
      = getDependantRootAtEpoch 32 fuel' chainW blockC1 1 /\
      getDependantRootAtEpoch 32 fuel' chainW blockB1 1 = Some (Ok "0xA").
Proof.
  apply (getDependantRootAtEpoch_same_on_chain 32 chainW blockC1 blockB1 1
           blockA).
  - lia.
  - lia.
  - apply chainW_wf.
  - apply chainW_last_before.
  - apply chainW_C_B.
  - vm_compute. discriminate.
Defined.

(** On the chain to H, whose block L7 has neither its parent nor its
    target in the fork choice, the root for epoch 7 cannot be resolved. *)
Lemma getDependantRootAtEpoch_throws_iff_witness :
  walk_dead_end chainH (computeStartSlotAtEpoch 32 7) blockH /\
  BeforeFinalized 8
  = if decide (7 < cp_epoch (getFinalizedCheckpoint chainH))
    then BeforeFinalized (cp_epoch (getFinalizedCheckpoint chainH))
    else Unresolvable (blockRoot blockH) (slot blockH).
Proof.
  apply (getDependantRootAtEpoch_throws_iff 32 chainH blockH 7
           (BeforeFinalized 8)).
  - lia.
  - exists 5%nat. vm_compute. reflexivity.
Defined.

Lemma setHead_miss_recovers_witness :
  getHeadState headAtB = None /\
  jobQueue headAtB = jobQueue headAtB /\
  last (pending (jobQueue headAtB))
  = Some {| job_id := 0;
            job_request := ReqGetState "0xSB" regenHeadState |} /\
  forall state,
    headState (jobResolved headAtB 0 state) = Some state /\
    getHeadState (jobResolved headAtB 0 state) = Some state.
Proof.
  apply (setHead_miss_recovers 32 3 coldRegen blockB None headAtB
           (jobQueue headAtB) 0%nat); reflexivity.
Defined.

Lemma setHead_miss_refused_witness :
  getHeadState headAtBQueueFull = None /\
  jobQueue headAtBQueueFull = jobQueue (afterMisses 256) /\
  thenCallbacks headAtBQueueFull = thenCallbacks (afterMisses 256) /\
  microtasks headAtBQueueFull = microtasks (afterMisses 256).
Proof.
  apply (setHead_miss_refused 32 3 (afterMisses 256) blockB None
           headAtBQueueFull QUEUE_MAX_LENGTH).
  - vm_compute. reflexivity.
  - vm_compute. reflexivity.
  - vm_compute. reflexivity.
Defined.

Lemma getHeadStateAtEpoch_as_slot_witness :
  getHeadStateAtEpoch 32 (fun s _ => Some s) headAtBWithState 2
  = getHeadStateAtSlot (fun s _ => Some s) headAtBWithState
      (computeStartSlotAtEpoch 32 2).
Proof.
  apply (getHeadStateAtEpoch_as_slot 32 (fun s _ => Some s)
           headAtBWithState 2).
  - lia.
  - vm_compute. reflexivity.
  - vm_compute. discriminate.
Defined.

Lemma setHead_then_head_accessors_witness :
  (forall e, computeEpochAtSlot 32 (slot blockB) <= e ->
             getHeadStateAtEpoch 32 (fun _ _ => None) headAtBWithState e
             = Ok stateB) /\
  (forall sl, slot blockB <= sl ->
              getHeadStateAtSlot (fun _ _ => None) headAtBWithState sl
              = Ok stateB).
Proof.
  apply (setHead_then_head_accessors 32 (fun _ _ => None) 3 coldRegen blockB
           stateB headAtBWithState); reflexivity.
Defined.

Lemma addPostState_then_getProposerShuffling_witness :
  exists x,
    snd <$> getProposerShuffling 32 3 registeredB.1 blockC 50
    = Some (Ok (proposers x)) /\
    (x = stateB \/ headState coldRegen = Some x
     \/ first_live (bucket coldRegen (computeEpochAtSlot 32 (st_slot stateB))
                      "0xA") = Some x) /\
    (headState coldRegen = None ->
     first_live (bucket coldRegen (computeEpochAtSlot 32 (st_slot stateB))
                   "0xA") = None ->
     x = stateB).
Proof.
  apply (addPostState_then_getProposerShuffling 32 3 coldRegen emptyTiers
           stateB blockB registeredB.1 registeredB.2 blockC 50 "0xA").
  - vm_compute. reflexivity.
  - vm_compute. reflexivity.
  - vm_compute. reflexivity.
  - vm_compute. reflexivity.
Defined.

Lemma setHead_serves_shufflings_witness :
  getProposerShuffling 32 4 headAtH blockH 330
  = Some (headAtH, Ok (proposers stateH)) /\
  getAttesterShuffling 32 4 headAtH {| epoch := 10; root := "0xH" |}
  = Some (headAtH, Ok (currentShuffling stateH)).
Proof.
  destruct (setHead_serves_shufflings 32 4
              (newRegen chainH ∅ noCheckpointStates genesisSummary)
              blockH stateH headAtH) as [Hproposer Hattester];
    [reflexivity..|].
  split.
  - apply Hproposer. reflexivity.
  - apply Hattester. reflexivity.
Defined.

Lemma facade_leaves_head_witness :
  head (getState headAtH "0xS?" (caller "x")).1 = head headAtH /\
  headState (getState headAtH "0xS?" (caller "x")).1 = Some stateH /\
  forall this' res,
    getAttesterShuffling 32 4 headAtH {| epoch := 3; root := "0xH" |}
    = Some (this', res) ->
    head this' = head headAtH /\ headState this' = Some stateH.
Proof.
  destruct (facade_leaves_head 32 headAtH)
    as (HgetState & _ & _ & Hattester & _).
  destruct (HgetState "0xS?" (caller "x")) as [Hh Hhs].
  split; [exact Hh|]. split; [exact Hhs|].
  intros this' res Hrun. exact (Hattester 4%nat _ this' res Hrun).
Defined.

End RegenExtra.

(** * More of Capella: processing withdrawals, and what is withdrawn *)

Module CapellaExtra.

Import Capella.

#[local] Instance byte_eq_dec : EqDecision Byte.byte := Byte.byte_eq_dec.

(** ** Definitions *)

(** [ssz.capella.Withdrawal.equals]: equality field by field. *)
#[local] Instance withdrawal_eq_dec : EqDecision Withdrawal.
Proof. solve_decision. Defined.

(** [capella.FullOrBlindedExecutionPayload]: the field [processWithdrawals]
    reads. *)
Record ExecutionPayload : Type := {
  payload_withdrawals : list Withdrawal;
}.

Inductive WithdrawalsError : Type :=
| ExpectedWithdrawalsFailed (e : CapellaError)
| InvalidWithdrawalsLength (expected actual : nat)
| WithdrawalMismatch (i : nat).

(** The validators the sweep visits in its first [k] iterations, from
    [start] on, around a registry of [n] validators. *)
Definition sweep (start n k : nat) : list nat :=
  (fun j => (start + j) `mod` n) <$> seq 0 k.

Section WithParams.

Variable MAX_EFFECTIVE_BALANCE : Z.
Variable MAX_WITHDRAWALS_PER_PAYLOAD : nat.
Variable ETH1_ADDRESS_WITHDRAWAL_PREFIX : list Byte.byte.
Variable BLS_WITHDRAWAL_PREFIX : list Byte.byte.
Variable digest : list Byte.byte -> list Byte.byte.

(** [decreaseBalance] of the state-transition utilities, which
    [processWithdrawals] calls for each withdrawal. *)
Variable decreaseBalance :
  CachedBeaconStateCapella -> nat -> Z -> CachedBeaconStateCapella.

(** The [for] loop of [processWithdrawals] from index [i] on: each
    expected withdrawal is compared with the payload's and, when equal,
    taken from its validator's balance. Gives the state the loop leaves
    and the index at which it threw, if it did. *)
Fixpoint applyWithdrawals (i : nat) (expected actual : list Withdrawal)
    (state : CachedBeaconStateCapella)
  : CachedBeaconStateCapella * option nat :=
  match expected, actual with
  | withdrawal :: expected', other :: actual' =>
      if decide (withdrawal = other) then
        applyWithdrawals (S i) expected' actual'
          (decreaseBalance state (w_validatorIndex withdrawal)
             (w_amount withdrawal))
      else (state, Some i)
  | _, _ => (state, None)
  end.

Definition processWithdrawals (state : CachedBeaconStateCapella)
    (payload : ExecutionPayload)
  : CachedBeaconStateCapella * Result WithdrawalsError unit :=
  match getExpectedWithdrawals MAX_EFFECTIVE_BALANCE
          MAX_WITHDRAWALS_PER_PAYLOAD ETH1_ADDRESS_WITHDRAWAL_PREFIX
          state with
  | Err e => (state, Err (ExpectedWithdrawalsFailed e))
  | Ok expectedWithdrawals =>
      let numWithdrawals := length expectedWithdrawals in
      if decide (length expectedWithdrawals
                 <> length (payload_withdrawals payload)) then
        (state, Err (InvalidWithdrawalsLength numWithdrawals
                       (length (payload_withdrawals payload))))
      else
        match applyWithdrawals 0 expectedWithdrawals
                (payload_withdrawals payload) state with
        | (state, Some i) => (state, Err (WithdrawalMismatch i))
        | (state, None) =>
            match last expectedWithdrawals with
            | Some latestWithdrawal =>
                ({| epochCtx_epoch := epochCtx_epoch state;
                    nextWithdrawalIndex :=
                      (w_index latestWithdrawal + 1)%Z;
                    nextWithdrawalValidatorIndex :=
                      (w_validatorIndex latestWithdrawal + 1)
                        `mod` length (validators state);
                    validators := validators state;
                    balances := balances state |},
                 Ok tt)
            | None => (state, Ok tt)
            end
        end
  end.

(** The balances after the withdrawals of a list have been taken, in
    order. *)
Definition decreaseAll (withdrawals : list Withdrawal)
    (state : CachedBeaconStateCapella) : CachedBeaconStateCapella :=
  foldl (fun st w => decreaseBalance st (w_validatorIndex w) (w_amount w))
        state withdrawals.

(** What the sweep has seen of a validator it withdraws from. *)
Definition withdrawn_from (vals : list Validator) (bals : list Z)
    (currentEpoch : Z) (w : Withdrawal) : Prop :=
  exists validator balance,
    vals !! w_validatorIndex w = Some validator /\
    bals !! w_validatorIndex w = Some balance /\
    w_address w = drop 12 (withdrawalCredentials validator) /\
    withdrawalCredentials validator !! 0
    = ETH1_ADDRESS_WITHDRAWAL_PREFIX !! 0 /\
    (((withdrawableEpoch validator <= currentEpoch)%Z /\
      w_amount w = balance /\ (0 < balance)%Z)
     \/ ((currentEpoch < withdrawableEpoch validator)%Z /\
         w_amount w = (balance - MAX_EFFECTIVE_BALANCE)%Z /\
         effectiveBalance validator = MAX_EFFECTIVE_BALANCE /\
         (MAX_EFFECTIVE_BALANCE < balance)%Z)
     \/ ((withdrawableEpoch validator <= currentEpoch)%Z /\
         w_amount w = balance /\
         effectiveBalance validator = MAX_EFFECTIVE_BALANCE /\
         (MAX_EFFECTIVE_BALANCE < balance)%Z)).

(** ** Facts about [processWithdrawals] *)

Lemma applyWithdrawals_spec expected :
  forall i actual state,
    length expected = length actual ->
    match applyWithdrawals i expected actual state with
    | (st, None) => actual = expected /\ st = decreaseAll expected state
    | (st, Some j) =>
        exists k, j = i + k /\ k < length expected /\
                  take k actual = take k expected /\
                  actual !! k <> expected !! k /\
                  st = decreaseAll (take k expected) state
    end.
Proof.
  induction expected as [|w expected IH]; intros i [|a actual] state Hlen;
    try discriminate; simpl; [done|].
  injection Hlen as Hlen.
  destruct (decide (w = a)) as [<-|Hne].
  - specialize (IH (S i) actual
                  (decreaseBalance state (w_validatorIndex w) (w_amount w))
                  Hlen).
    destruct (applyWithdrawals _ _ _ _) as [st [j|]].
    + destruct IH as (k & -> & Hk & Htake & Hdiff & ->).
      exists (S k). simpl. repeat split; [lia|lia|by f_equal|done].
    + destruct IH as [-> ->]. done.
  - exists 0. simpl. repeat split; [lia|lia|congruence].
Qed.

(** A payload is accepted exactly when its withdrawals are the expected
    ones, whatever [decreaseBalance] does. *)
Theorem processWithdrawals_accepts_iff state payload expected :
  getExpectedWithdrawals MAX_EFFECTIVE_BALANCE MAX_WITHDRAWALS_PER_PAYLOAD
    ETH1_ADDRESS_WITHDRAWAL_PREFIX state = Ok expected ->
  (processWithdrawals state payload).2 = Ok tt
  <-> payload_withdrawals payload = expected.
Proof.
  intros Hexp. unfold processWithdrawals. rewrite Hexp.
  case_decide as Hlen.
  { simpl. split; [done|]. intros Heq. by rewrite Heq in Hlen. }
  assert (length expected = length (payload_withdrawals payload)) as Hlen'
    by (destruct (decide (length expected
                          = length (payload_withdrawals payload))); done).
  pose proof (applyWithdrawals_spec expected 0 (payload_withdrawals payload)
                state Hlen') as Hloop.
  destruct (applyWithdrawals _ _ _ _) as [st [j|]].
  - destruct Hloop as (k & _ & _ & _ & Hdiff & _). simpl.
    split; [done|]. intros Heq. by rewrite Heq in Hdiff.
  - destruct Hloop as [Heq _]. split; [done|]. intros _.
    by destruct (last expected).
Qed.

(** How a payload is refused. With another number of withdrawals than
    expected, before anything is touched. With the right number, at the
    first withdrawal [k] that differs, after the [k] withdrawals before it
    have been taken from their balances: the state is left with them
    applied. *)
Theorem processWithdrawals_refusal state payload expected :
  getExpectedWithdrawals MAX_EFFECTIVE_BALANCE MAX_WITHDRAWALS_PER_PAYLOAD
    ETH1_ADDRESS_WITHDRAWAL_PREFIX state = Ok expected ->
  (length (payload_withdrawals payload) <> length expected ->
   processWithdrawals state payload
   = (state, Err (InvalidWithdrawalsLength (length expected)
                    (length (payload_withdrawals payload))))) /\
  (length (payload_withdrawals payload) = length expected ->
   payload_withdrawals payload <> expected ->
   exists k,
     k < length expected /\
     take k (payload_withdrawals payload) = take k expected /\
     payload_withdrawals payload !! k <> expected !! k /\
     processWithdrawals state payload
     = (decreaseAll (take k expected) state, Err (WithdrawalMismatch k))).
Proof.
  intros Hexp. unfold processWithdrawals. rewrite Hexp. split.
  - intros Hlen. rewrite decide_True by congruence. done.
  - intros Hlen Hne. rewrite decide_False by (intros H; by apply H).
    pose proof (applyWithdrawals_spec expected 0 (payload_withdrawals payload)
                  state (eq_sym Hlen)) as Hloop.
    destruct (applyWithdrawals _ _ _ _) as [st [j|]].
    + destruct Hloop as (k & -> & Hk & Htake & Hdiff & ->).
      exists k. done.
    + by destruct Hloop as [Heq _].
Qed.

Lemma last_index_of_consecutive (ws : list Withdrawal) start w :
  w_index <$> ws = seqZ start (Z.of_nat (length ws)) ->
  last ws = Some w ->
  w_index w = (start + Z.of_nat (length ws) - 1)%Z.
Proof.
  intros Hseq Hlast.
  apply last_Some in Hlast as [ws0 ->].
  rewrite length_app, fmap_app in Hseq. simpl in Hseq.
  replace (length ws0 + 1) with (S (length ws0)) in Hseq by lia.
  rewrite seqZ_S in Hseq.
  apply app_inj_tail in Hseq as [_ Hw].
  rewrite length_app. simpl. lia.
Qed.

(** An accepted payload moves the sweep on: the next withdrawal index
    grows by the number of withdrawals, the next validator is one inside
    the registry, and with no withdrawal expected the state stays as it
    is. [decreaseBalance] is only asked to leave the validators alone. *)
Theorem processWithdrawals_advances state payload :
  well_formed state ->
  1 <= MAX_WITHDRAWALS_PER_PAYLOAD ->
  (forall st i delta, validators (decreaseBalance st i delta) = validators st) ->
  (processWithdrawals state payload).2 = Ok tt ->
  exists expected,
    getExpectedWithdrawals MAX_EFFECTIVE_BALANCE MAX_WITHDRAWALS_PER_PAYLOAD
      ETH1_ADDRESS_WITHDRAWAL_PREFIX state = Ok expected /\
    payload_withdrawals payload = expected /\
    nextWithdrawalIndex (processWithdrawals state payload).1
    = (nextWithdrawalIndex state + Z.of_nat (length expected))%Z /\
    validators (processWithdrawals state payload).1 = validators state /\
    (expected = [] -> (processWithdrawals state payload).1 = state) /\
    (expected <> [] ->
     nextWithdrawalValidatorIndex (processWithdrawals state payload).1
     < length (validators state)).
Proof.
  intros [Hbals Hsweep] Hmax Hframe Hok.
  assert (forall ws st, validators (decreaseAll ws st) = validators st)
    as Hframe_all.
  { induction ws as [|w ws IH]; intros st; [done|].
    unfold decreaseAll in IH |- *. simpl. by rewrite IH, Hframe. }
  assert (exists expected,
            getExpectedWithdrawals MAX_EFFECTIVE_BALANCE
              MAX_WITHDRAWALS_PER_PAYLOAD ETH1_ADDRESS_WITHDRAWAL_PREFIX
              state = Ok expected /\
            w_index <$> expected
            = seqZ (nextWithdrawalIndex state)
                (Z.of_nat (length expected)) /\
            (expected <> [] -> validators state <> []))
    as (expected & Hexp & Hseq & Hnonempty).
  { unfold getExpectedWithdrawals.
    destruct (validators state) as [|v vs] eqn:Hvals.
    { exists []. done. }
    rewrite <- Hvals in Hbals, Hsweep |- *.
    destruct (withdrawalsLoop_spec MAX_EFFECTIVE_BALANCE
                MAX_WITHDRAWALS_PER_PAYLOAD ETH1_ADDRESS_WITHDRAWAL_PREFIX
                (nextWithdrawalIndex state) (length (validators state))
                (validators state) (balances state)
                (epochCtx_epoch state + 1)%Z Hbals
                (nextWithdrawalIndex state)
                (nextWithdrawalValidatorIndex state) [])
      as (result & Hres & _ & Hseq); simpl; try done; try lia.
    { apply Hsweep. by rewrite Hvals. }
    exists result. split; [done|]. split; [done|].
    intros _. by rewrite Hvals. }
  exists expected. split; [done|].
  unfold processWithdrawals in Hok |- *. rewrite Hexp in Hok |- *.
  case_decide as Hlen; [done|].
  assert (length expected = length (payload_withdrawals payload)) as Hlen'
    by (destruct (decide (length expected
                          = length (payload_withdrawals payload))); done).
  pose proof (applyWithdrawals_spec expected 0 (payload_withdrawals payload)
                state Hlen') as Hloop.
  destruct (applyWithdrawals _ _ _ _) as [st [j|]]; [done|].
  destruct Hloop as [Heq ->]. split; [done|].
  destruct (last expected) as [latest|] eqn:Hlast; simpl.
  - rewrite (last_index_of_consecutive _ _ _ Hseq Hlast).
    rewrite Hframe_all.
    split; [lia|]. split; [done|]. split.
    + intros ->. discriminate.
    + intros Hne. apply Nat.mod_upper_bound.
      specialize (Hnonempty Hne). destruct (validators state); simpl; [done|lia].
  - apply last_None in Hlast as ->. simpl.
    split; [lia|]. done.
Qed.

(** ** What [getExpectedWithdrawals] withdraws *)

Lemma sweep_S start n k :
  sweep start n (S k) = sweep start n k ++ [(start + k) `mod` n].
Proof. unfold sweep. by rewrite seq_S, fmap_app. Qed.

Lemma sweep_sublist start n k :
  k <= n -> sublist (sweep start n k) (sweep start n n).
Proof.
  intros Hk. unfold sweep.
  assert (seq 0 n = seq 0 k ++ seq (0 + k) (n - k)) as ->
    by (rewrite <- seq_app; f_equal; lia).
  rewrite fmap_app. by apply sublist_inserts_r.
Qed.

Lemma sweep_NoDup start n : NoDup (sweep start n n).
Proof.
  unfold sweep. apply NoDup_fmap_2_strong; [|apply NoDup_seq].
  intros j1 j2 H1 H2 Heq.
  apply elem_of_seq in H1, H2.
  pose proof (Nat.div_mod_eq (start + j1) n) as Hd1.
  pose proof (Nat.div_mod_eq (start + j2) n) as Hd2.
  rewrite Heq in Hd1.
  assert ((start + j1) / n = (start + j2) / n) by nia.
  nia.
Qed.

Lemma withdrawalsLoop_inv start vals bals currentEpoch :
  forall iterations k withdrawalIndex validatorIdx withdrawals result,
    k + iterations = length vals ->
    validatorIdx = (start + k) `mod` length vals ->
    Forall (withdrawn_from vals bals currentEpoch)
      withdrawals ->
    sublist (w_validatorIndex <$> withdrawals)
      (sweep start (length vals) k) ->
    withdrawalsLoop MAX_EFFECTIVE_BALANCE MAX_WITHDRAWALS_PER_PAYLOAD
      ETH1_ADDRESS_WITHDRAWAL_PREFIX iterations vals bals currentEpoch
      withdrawalIndex validatorIdx withdrawals = Ok result ->
    Forall (withdrawn_from vals bals currentEpoch)
      result /\
    sublist (w_validatorIndex <$> result)
      (sweep start (length vals) (length vals)).
Proof.
  induction iterations as [|iterations IH];
    intros k wi vi ws result Hk Hvi Hsound Hsub Hrun; simpl in Hrun.
  { injection Hrun as <-. split; [done|].
    replace (length vals) with k at 2 by lia. done. }
  destruct (vals !! vi) as [validator|] eqn:Hv; [|done].
  destruct (bals !! vi) as [balance|] eqn:Hb; [|done].
  assert ((vi + 1) `mod` length vals = (start + S k) `mod` length vals)
    as Hnext.
  { rewrite Hvi, Nat.Div0.add_mod_idemp_l. f_equal. lia. }
  case_decide as Hcond.
  - set (w := {| w_index := wi; w_validatorIndex := vi;
                 w_address := drop 12 (withdrawalCredentials validator);
                 w_amount :=
                   if decide (withdrawableEpoch validator <= currentEpoch)%Z
                   then balance
                   else (balance - MAX_EFFECTIVE_BALANCE)%Z |}) in Hrun.
    assert (Forall (withdrawn_from vals bals currentEpoch)
              (ws ++ [w])) as Hsound'.
    { apply Forall_app. split; [done|]. apply Forall_singleton.
      exists validator, balance. subst w. simpl.
      destruct Hcond as [Hbal Hprefix].
      repeat split; try done.
      destruct (decide (withdrawableEpoch validator <= currentEpoch)%Z)
        as [Hle|Hgt]; destruct Hbal as [[Hpos Hwe]|[Heff Hbig]].
      + left. done.
      + right. right. done.
      + lia.
      + right. left. repeat split; [lia|done..]. }
    assert (sublist (w_validatorIndex <$> ws ++ [w])
              (sweep start (length vals) (S k))) as Hsub'.
    { rewrite fmap_app, sweep_S. apply sublist_app; [done|].
      subst w. simpl. by rewrite Hvi. }
    case_decide as Hfull.
    + injection Hrun as <-. split; [done|].
      etrans; [exact Hsub'|]. apply sweep_sublist. lia.
    + eapply (IH (S k)); [lia|exact Hnext|exact Hsound'|exact Hsub'|].
      exact Hrun.
  - assert (sublist (w_validatorIndex <$> ws)
              (sweep start (length vals) (S k))) as Hsub'.
    { rewrite sweep_S. by apply sublist_inserts_r. }
    case_decide as Hfull.
    + injection Hrun as <-. split; [done|].
      etrans; [exact Hsub'|]. apply sweep_sublist. lia.
    + eapply (IH (S k)); [lia|exact Hnext|exact Hsound|exact Hsub'|].
      exact Hrun.
Qed.

Lemma getExpectedWithdrawals_inv state withdrawals :
  getExpectedWithdrawals MAX_EFFECTIVE_BALANCE MAX_WITHDRAWALS_PER_PAYLOAD
    ETH1_ADDRESS_WITHDRAWAL_PREFIX state = Ok withdrawals ->
  Forall (withdrawn_from (validators state)
            (balances state) (epochCtx_epoch state + 1)%Z) withdrawals /\
  sublist (w_validatorIndex <$> withdrawals)
    (sweep (nextWithdrawalValidatorIndex state) (length (validators state))
       (length (validators state))).
Proof.
  unfold getExpectedWithdrawals. intros Hrun.
  destruct (validators state) as [|v vs] eqn:Hvals.
  { simpl in Hrun. injection Hrun as <-. split; [done|]. simpl.
    apply sublist_nil_l. }
  rewrite <- Hvals in Hrun |- *.
  assert (nextWithdrawalValidatorIndex state < length (validators state))
    as Hstart.
  { destruct (decide (nextWithdrawalValidatorIndex state
                      < length (validators state))) as [|Hge]; [done|].
    rewrite Hvals in Hrun. simpl in Hrun. rewrite <- Hvals in Hrun.
    rewrite (lookup_ge_None_2 (validators state)) in Hrun by lia.
    done. }
  apply (withdrawalsLoop_inv (nextWithdrawalValidatorIndex state)
           (validators state) (balances state) _
           (length (validators state)) 0 (nextWithdrawalIndex state)
           (nextWithdrawalValidatorIndex state) [] withdrawals);
    [lia| |done|apply sublist_nil_l|exact Hrun].
  rewrite Nat.add_0_r. symmetry. by apply Nat.mod_small.
Qed.

(** Every expected withdrawal comes from a validator of the registry whose
    credentials start with the execution-address prefix, goes to the last
    20 bytes of those credentials, and is for a positive amount that does
    not exceed the validator's balance. *)
Theorem getExpectedWithdrawals_sound state withdrawals :
  (0 <= MAX_EFFECTIVE_BALANCE)%Z ->
  getExpectedWithdrawals MAX_EFFECTIVE_BALANCE MAX_WITHDRAWALS_PER_PAYLOAD
    ETH1_ADDRESS_WITHDRAWAL_PREFIX state = Ok withdrawals ->
  Forall
    (fun w =>
       exists validator balance,
         validators state !! w_validatorIndex w = Some validator /\
         balances state !! w_validatorIndex w = Some balance /\
         withdrawalCredentials validator !! 0
         = ETH1_ADDRESS_WITHDRAWAL_PREFIX !! 0 /\
         w_address w = drop 12 (withdrawalCredentials validator) /\
         (0 < w_amount w <= balance)%Z)
    withdrawals.
Proof.
  intros Hmax Hrun.
  destruct (getExpectedWithdrawals_inv _ _ Hrun) as [Hsound _].
  eapply Forall_impl; [exact Hsound|].
  intros w (validator & balance & Hv & Hb & Haddr & Hprefix & Hamount).
  exists validator, balance. repeat split; try done;
    destruct Hamount as [(? & ? & ?)|[(? & ? & ? & ?)|(? & ? & ? & ?)]]; lia.
Qed.

(** No validator is withdrawn from twice in one list of expected
    withdrawals, and the validators come in sweep order from
    [nextWithdrawalValidatorIndex] on. *)
Theorem getExpectedWithdrawals_once_each state withdrawals :
  getExpectedWithdrawals MAX_EFFECTIVE_BALANCE MAX_WITHDRAWALS_PER_PAYLOAD
    ETH1_ADDRESS_WITHDRAWAL_PREFIX state = Ok withdrawals ->
  NoDup (w_validatorIndex <$> withdrawals) /\
  sublist (w_validatorIndex <$> withdrawals)
    (sweep (nextWithdrawalValidatorIndex state) (length (validators state))
       (length (validators state))) /\
  length withdrawals <= length (validators state).
Proof.
  intros Hrun.
  destruct (getExpectedWithdrawals_inv _ _ Hrun) as [_ Hsub].
  split; [|split; [done|]].
  - eapply sublist_NoDup; [apply sweep_NoDup|exact Hsub].
  - apply sublist_length in Hsub.
    unfold sweep in Hsub. by rewrite !length_fmap, length_seq in Hsub.
Qed.

(** ** A credential change, and the withdrawals after it *)

Lemma processBlsToExecutionChange_success_inv state signed state' :
  length ETH1_ADDRESS_WITHDRAWAL_PREFIX = 1 ->
  (forall v, validators state !! validatorIndex (message signed) = Some v ->
             length (withdrawalCredentials v) = 32) ->
  length (toExecutionAddress (message signed)) = 20 ->
  processBlsToExecutionChange ETH1_ADDRESS_WITHDRAWAL_PREFIX
    BLS_WITHDRAWAL_PREFIX digest state signed = (state', Ok tt) ->
  exists v,
    validators state !! validatorIndex (message signed) = Some v /\
    state' = with_credentials (validatorIndex (message signed))
               (ETH1_ADDRESS_WITHDRAWAL_PREFIX ++ replicate 11 Byte.x00
                  ++ toExecutionAddress (message signed)) state.
Proof.
  intros Hprefix Hcreds Haddr. unfold processBlsToExecutionChange.
  case_decide; [done|].
  destruct (validators state !! validatorIndex (message signed))
    as [v|] eqn:Hv; [|done].
  specialize (Hcreds v eq_refl).
  destruct (byteArrayEquals _ BLS_WITHDRAWAL_PREFIX); simpl; [|done].
  destruct (byteArrayEquals _ _); simpl; [|done].
  rewrite set_prefix, set_zeros, set_address by done.
  intros [= <-]. by exists v.
Qed.

(** A credential change succeeds once: after it, every change for the same
    validator is refused for its prefix and leaves the state as it is. *)
Theorem processBlsToExecutionChange_only_once state signed state' signed' :
  length ETH1_ADDRESS_WITHDRAWAL_PREFIX = 1 ->
  ETH1_ADDRESS_WITHDRAWAL_PREFIX <> BLS_WITHDRAWAL_PREFIX ->
  (forall v, validators state !! validatorIndex (message signed) = Some v ->
             length (withdrawalCredentials v) = 32) ->
  length (toExecutionAddress (message signed)) = 20 ->
  processBlsToExecutionChange ETH1_ADDRESS_WITHDRAWAL_PREFIX
    BLS_WITHDRAWAL_PREFIX digest state signed = (state', Ok tt) ->
  validatorIndex (message signed') = validatorIndex (message signed) ->
  processBlsToExecutionChange ETH1_ADDRESS_WITHDRAWAL_PREFIX
    BLS_WITHDRAWAL_PREFIX digest state' signed'
  = (state', Err InvalidWithdrawalCredentialsPrefix).
Proof.
  intros Hprefix Hdiff Hcreds Haddr Hfirst Hsame.
  destruct (processBlsToExecutionChange_success_inv _ _ _ Hprefix Hcreds
              Haddr Hfirst) as (v & Hv & ->).
  unfold processBlsToExecutionChange. rewrite Hsame.
  destruct (with_credentials_lookup (validatorIndex (message signed))
              (ETH1_ADDRESS_WITHDRAWAL_PREFIX ++ replicate 11 Byte.x00
                 ++ toExecutionAddress (message signed)) state v Hv)
    as (Hnew & _ & _).
  apply lookup_lt_Some in Hv as Hlt.
  rewrite decide_False
    by (cbn [validators with_credentials]; rewrite length_alter; lia).
  rewrite Hnew.
  cbn [withdrawalCredentials with_withdrawalCredentials].
  unfold byteArrayEquals, slice, WITHDRAWAL_PREFIX_BYTES.
  rewrite drop_0, Nat.sub_0_r.
  rewrite take_app_length' by done.
  by rewrite bool_decide_eq_false_2.
Qed.

(** After a credential change the validator's credentials carry the
    execution-address prefix, and whatever is then withdrawn from that
    validator goes to the address of the change. *)
Theorem credential_change_directs_withdrawals state signed state' :
  length ETH1_ADDRESS_WITHDRAWAL_PREFIX = 1 ->
  (forall v, validators state !! validatorIndex (message signed) = Some v ->
             length (withdrawalCredentials v) = 32) ->
  length (toExecutionAddress (message signed)) = 20 ->
  processBlsToExecutionChange ETH1_ADDRESS_WITHDRAWAL_PREFIX
    BLS_WITHDRAWAL_PREFIX digest state signed = (state', Ok tt) ->
  (exists v',
     validators state' !! validatorIndex (message signed) = Some v' /\
     withdrawalCredentials v' !! 0 = ETH1_ADDRESS_WITHDRAWAL_PREFIX !! 0) /\
  forall withdrawals w,
    getExpectedWithdrawals MAX_EFFECTIVE_BALANCE MAX_WITHDRAWALS_PER_PAYLOAD
      ETH1_ADDRESS_WITHDRAWAL_PREFIX state' = Ok withdrawals ->
    w ∈ withdrawals ->
    w_validatorIndex w = validatorIndex (message signed) ->
    w_address w = toExecutionAddress (message signed).
Proof.
  intros Hprefix Hcreds Haddr Hchange.
  destruct (processBlsToExecutionChange_success_inv _ _ _ Hprefix Hcreds
              Haddr Hchange) as (v & Hv & Hstate').
  set (c := ETH1_ADDRESS_WITHDRAWAL_PREFIX ++ replicate 11 Byte.x00
              ++ toExecutionAddress (message signed)) in Hstate'.
  assert (drop 12 c = toExecutionAddress (message signed)) as Hdrop.
  { subst c. rewrite (assoc_L (++)). apply drop_app_length'.
    rewrite length_app, length_replicate. lia. }
  assert (c !! 0 = ETH1_ADDRESS_WITHDRAWAL_PREFIX !! 0) as Hhead.
  { subst c. apply lookup_app_l. lia. }
  clearbody c. subst state'.
  destruct (with_credentials_lookup (validatorIndex (message signed))
              c state v Hv) as (Hnew & _ & _).
  split.
  - eexists. split; [exact Hnew|]. exact Hhead.
  - intros withdrawals w Hrun Hin Hidx.
    destruct (getExpectedWithdrawals_inv _ _ Hrun) as [Hsound _].
    rewrite Forall_forall in Hsound.
    destruct (Hsound w Hin) as (v' & bal & Hv' & _ & -> & _).
    rewrite Hidx, Hnew in Hv'. injection Hv' as <-.
    exact Hdrop.
Qed.

End WithParams.

(** ** Worked scenarios *)

(** A [decreaseBalance] for the scenarios: the balance is lowered, not
    below zero. *)
Definition lowerBalance (state : CachedBeaconStateCapella) (i : nat)
    (delta : Z) : CachedBeaconStateCapella :=
  {| epochCtx_epoch := epochCtx_epoch state;
     nextWithdrawalIndex := nextWithdrawalIndex state;
     nextWithdrawalValidatorIndex := nextWithdrawalValidatorIndex state;
     validators := validators state;
     balances := alter (fun b => Z.max 0 (b - delta)) i (balances state) |}.

(** The withdrawals expected of [fourValidators] with two per payload, and
    a payload whose second withdrawal asks for more. *)
Definition withdrawal7 : Withdrawal :=
  {| w_index := 7; w_validatorIndex := 2;
     w_address := replicate 20 Byte.x77; w_amount := 31 |}.
Definition withdrawal8 : Withdrawal :=
  {| w_index := 8; w_validatorIndex := 0;
     w_address := replicate 20 Byte.x77; w_amount := 8 |}.
Definition withdrawal8more : Withdrawal :=
  {| w_index := 8; w_validatorIndex := 0;
     w_address := replicate 20 Byte.x77; w_amount := 9 |}.

Definition honestPayload : ExecutionPayload :=
  {| payload_withdrawals := [withdrawal7; withdrawal8] |}.
Definition greedyPayload : ExecutionPayload :=
  {| payload_withdrawals := [withdrawal7; withdrawal8more] |}.

(** [oneValidator] after its credential change. *)
Definition changedValidator : CachedBeaconStateCapella :=
  with_credentials 0 (eth1Prefix ++ replicate 11 Byte.x00 ++ addressT)
    oneValidator.

Lemma processWithdrawals_accepts_iff_witness :
  (processWithdrawals 32 2 eth1Prefix lowerBalance fourValidators
     honestPayload).2 = Ok tt
  <-> payload_withdrawals honestPayload = [withdrawal7; withdrawal8].
Proof.
  apply (processWithdrawals_accepts_iff 32 2 eth1Prefix lowerBalance
           fourValidators honestPayload [withdrawal7; withdrawal8]).
  vm_compute. reflexivity.
Defined.

Lemma processWithdrawals_refusal_witness :
  exists k,
    k < 2 /\
    take k (payload_withdrawals greedyPayload)
    = take k [withdrawal7; withdrawal8] /\
    payload_withdrawals greedyPayload !! k
    <> [withdrawal7; withdrawal8] !! k /\
    processWithdrawals 32 2 eth1Prefix lowerBalance fourValidators
      greedyPayload
    = (decreaseAll lowerBalance (take k [withdrawal7; withdrawal8])
         fourValidators,
       Err (WithdrawalMismatch k)).
Proof.
  apply (proj2 (processWithdrawals_refusal 32 2 eth1Prefix lowerBalance
                  fourValidators greedyPayload [withdrawal7; withdrawal8]
                  ltac:(vm_compute; reflexivity))).
  - reflexivity.
  - vm_compute. discriminate.
Defined.

Lemma processWithdrawals_advances_witness :
  exists expected,
    getExpectedWithdrawals 32 2 eth1Prefix fourValidators = Ok expected /\
    payload_withdrawals honestPayload = expected /\
    nextWithdrawalIndex
      (processWithdrawals 32 2 eth1Prefix lowerBalance fourValidators
         honestPayload).1
    = (nextWithdrawalIndex fourValidators + Z.of_nat (length expected))%Z /\
    validators
      (processWithdrawals 32 2 eth1Prefix lowerBalance fourValidators
         honestPayload).1
    = validators fourValidators /\
    (expected = [] ->
     (processWithdrawals 32 2 eth1Prefix lowerBalance fourValidators
        honestPayload).1 = fourValidators) /\
    (expected <> [] ->
     nextWithdrawalValidatorIndex
       (processWithdrawals 32 2 eth1Prefix lowerBalance fourValidators
          honestPayload).1
     < length (validators fourValidators)).
Proof.
  apply (processWithdrawals_advances 32 2 eth1Prefix lowerBalance
           fourValidators honestPayload).
  - split; [reflexivity|]. intros _. simpl. lia.
  - lia.
  - reflexivity.
  - vm_compute. reflexivity.
Defined.

Lemma getExpectedWithdrawals_sound_witness :
  Forall
    (fun w =>
       exists validator balance,
         validators fourValidators !! w_validatorIndex w = Some validator /\
         balances fourValidators !! w_validatorIndex w = Some balance /\
         withdrawalCredentials validator !! 0 = eth1Prefix !! 0 /\
         w_address w = drop 12 (withdrawalCredentials validator) /\
         (0 < w_amount w <= balance)%Z)
    [withdrawal7; withdrawal8].
Proof.
  apply (getExpectedWithdrawals_sound 32 2 eth1Prefix fourValidators
           [withdrawal7; withdrawal8]).
  - lia.
  - vm_compute. reflexivity.
Defined.

Lemma getExpectedWithdrawals_once_each_witness :
  NoDup (w_validatorIndex <$> [withdrawal7; withdrawal8]) /\
  sublist (w_validatorIndex <$> [withdrawal7; withdrawal8])
    (sweep (nextWithdrawalValidatorIndex fourValidators)
       (length (validators fourValidators))
       (length (validators fourValidators))) /\
  length [withdrawal7; withdrawal8] <= length (validators fourValidators).
Proof.
  apply (getExpectedWithdrawals_once_each 32 2 eth1Prefix fourValidators
           [withdrawal7; withdrawal8]).
  vm_compute. reflexivity.
Defined.

Lemma processBlsToExecutionChange_only_once_witness :
  processBlsToExecutionChange eth1Prefix blsPrefix paddedDigest
    changedValidator (changeOf 0 pubkeyK)
  = (changedValidator, Err InvalidWithdrawalCredentialsPrefix).
Proof.
  apply (processBlsToExecutionChange_only_once eth1Prefix blsPrefix
           paddedDigest oneValidator (changeOf 0 pubkeyK) changedValidator
           (changeOf 0 pubkeyK)).
  - reflexivity.
  - discriminate.
  - intros v [= <-]. reflexivity.
  - reflexivity.
  - vm_compute. reflexivity.
  - reflexivity.
Defined.

Lemma credential_change_directs_withdrawals_witness :
  (exists v',
     validators changedValidator !! 0 = Some v' /\
     withdrawalCredentials v' !! 0 = eth1Prefix !! 0) /\
  forall withdrawals w,
    getExpectedWithdrawals 32 2 eth1Prefix changedValidator
    = Ok withdrawals ->
    w ∈ withdrawals ->
    w_validatorIndex w = 0 ->
    w_address w = addressT.
Proof.
  apply (credential_change_directs_withdrawals 32 2 eth1Prefix blsPrefix
           paddedDigest oneValidator (changeOf 0 pubkeyK) changedValidator).
  - reflexivity.
  - intros v [= <-]. reflexivity.
  - reflexivity.
  - vm_compute. reflexivity.
Defined.

(** After the change, the excess balance of the validator is withdrawn to
    the address of the change. *)
Example withdrawal_after_change :
  getExpectedWithdrawals 32 2 eth1Prefix changedValidator
  = Ok [ {| w_index := 7; w_validatorIndex := 0; w_address := addressT;
            w_amount := 1 |} ].
Proof. vm_compute. reflexivity. Qed.

End CapellaExtra.
